(** * Huffman coder of Project-C/main.c: shallow embedding and properties

    The development follows main.c function by function.  Conventions:

    - a [struct HuffmanNode*] is an [option HuffmanNode]; [NULL] is [None];
    - [char] is [ascii]; a C string is the [list ascii] before its
      terminating NUL;
    - [unsigned] is a [Z] in [0, 2^32): additions wrap ([uadd]) and
      comparisons are those of [Z];
    - [int] sizes and indices are [Z] or [nat], none of them near 2^31;
    - [malloc] is taken to succeed and the heap strings are unbounded lists;
      the 256 bytes of [char code[256]] and of a row of
      [char codes[256][256]] are accounted for by [storeCodesInBounds],
      which decides whether a call of storeCodes stays inside them;
    - a call that would dereference a null pointer or index an array outside
      the caller's table yields [Err]. *)

From Stdlib Require Import ZArith List Ascii Bool Lia Permutation Sorted.
Import ListNotations.

(** ** Outcomes of a call *)

Inductive error : Type :=
| AllocationFailure   (* a [return NULL] after a failed malloc *)
| NullDereference     (* [p->field] with [p == NULL] *)
| OutOfRange.         (* [a[i]] past the end of the caller's array *)

Inductive result (A : Type) : Type :=
| Ok (a : A)
| Err (e : error).

Arguments Ok {A} a.
Arguments Err {A} e.

Definition bind {A B : Type} (c : result A) (k : A -> result B) : result B :=
  match c with
  | Ok a => k a
  | Err e => Err e
  end.

Declare Scope result_scope.
Delimit Scope result_scope with result.
Notation "x <- c ;; k" := (bind c (fun x => k))
  (at level 61, c at next level, right associativity) : result_scope.

Definition deref {A : Type} (p : option A) : result A :=
  match p with
  | Some a => Ok a
  | None => Err NullDereference
  end.

Definition index {A : Type} (a : list A) (i : nat) : result A :=
  match nth_error a i with
  | Some x => Ok x
  | None => Err OutOfRange
  end.

(** ** struct HuffmanNode *)

#[local] Unset Elimination Schemes.
Inductive HuffmanNode : Type :=
| mkNode (data : ascii) (freq : Z) (left right : option HuffmanNode).
#[local] Set Elimination Schemes.

Abbreviation NULL := (@None HuffmanNode).

Definition data (n : HuffmanNode) : ascii :=
  match n with mkNode d _ _ _ => d end.

Definition freq (n : HuffmanNode) : Z :=
  match n with mkNode _ f _ _ => f end.

Definition left (n : HuffmanNode) : option HuffmanNode :=
  match n with mkNode _ _ l _ => l end.

Definition right (n : HuffmanNode) : option HuffmanNode :=
  match n with mkNode _ _ _ r => r end.

Definition isNull (p : option HuffmanNode) : bool :=
  match p with
  | None => true
  | Some _ => false
  end.

(** [unsigned] arithmetic: 32 bits, wrapping. *)
Definition UINT_MODULUS : Z := 2 ^ 32.

Definition uadd (a b : Z) : Z := ((a + b) mod UINT_MODULUS)%Z.

(** createHuffmanNode (lines 22-41): a fresh leaf. *)
Definition createHuffmanNode (d : ascii) (f : Z) : HuffmanNode :=
  mkNode d f NULL NULL.

(** ** struct SortedArrayPriorityQueue

    [array] holds the [size] live slots of the C array, in order; [size] is
    its length. *)

Record SortedArrayPriorityQueue : Type := mkQueue {
  capacity : Z;
  array : list HuffmanNode
}.

Definition size (queue : SortedArrayPriorityQueue) : Z :=
  Z.of_nat (length (array queue)).

(** createSortedArrayPriorityQueue (lines 45-73). *)
Definition createSortedArrayPriorityQueue (cap : Z) : SortedArrayPriorityQueue :=
  mkQueue cap [].

(** The backward scan of lines 86-94.  [below] is [array[0..i]] read from
    index [i] down to 0, [above] the slots already shifted one place up. *)
Fixpoint shiftGreater (below : list HuffmanNode) (node : HuffmanNode)
         (above : list HuffmanNode) : list HuffmanNode :=
  match below with
  | [] => node :: above
  | x :: below' =>
      if (freq x >? freq node)%Z
      then shiftGreater below' node (x :: above)
      else rev below ++ node :: above
  end.

(** insertSortedArrayPriorityQueue (lines 77-97). *)
Definition insertSortedArrayPriorityQueue
           (queue : SortedArrayPriorityQueue) (node : HuffmanNode)
  : SortedArrayPriorityQueue :=
  if (size queue =? capacity queue)%Z then queue
  else mkQueue (capacity queue) (shiftGreater (rev (array queue)) node []).

(** extractMin (lines 102-116): the removed node (or NULL) and the queue
    after the call. *)
Definition extractMin (queue : SortedArrayPriorityQueue)
  : option HuffmanNode * SortedArrayPriorityQueue :=
  match array queue with
  | [] => (NULL, queue)
  | minNode :: rest => (Some minNode, mkQueue (capacity queue) rest)
  end.

(** ** buildHuffmanTree (lines 119-149) *)

Open Scope result_scope.

(** The seeding loop of lines 125-127; [n] iterations remain, [i] is the
    loop index. *)
Fixpoint seedLoop (n i : nat) (data : list ascii) (freq : list Z)
         (queue : SortedArrayPriorityQueue) : result SortedArrayPriorityQueue :=
  match n with
  | O => Ok queue
  | S n' =>
      d <- index data i ;;
      f <- index freq i ;;
      seedLoop n' (S i) data freq
               (insertSortedArrayPriorityQueue queue (createHuffmanNode d f))
  end.

(** The merge loop of lines 130-145.  Every iteration shortens the queue,
    so [fuel = length (array queue)] iterations are enough
    (see [mergeLoop_exit]). *)
Fixpoint mergeLoop (fuel : nat) (queue : SortedArrayPriorityQueue)
  : result SortedArrayPriorityQueue :=
  match fuel with
  | O => Ok queue
  | S fuel' =>
      if (size queue >? 1)%Z then
        let (pl, q1) := extractMin queue in
        let (pr, q2) := extractMin q1 in
        l <- deref pl ;;
        r <- deref pr ;;
        let top := mkNode "$" (uadd (freq l) (freq r)) (Some l) (Some r) in
        mergeLoop fuel' (insertSortedArrayPriorityQueue q2 top)
      else Ok queue
  end.

Definition buildHuffmanTree (data : list ascii) (freq : list Z) (size : Z)
  : result (option HuffmanNode) :=
  let queue := createSortedArrayPriorityQueue size in
  queue <- seedLoop (Z.to_nat size) 0 data freq queue ;;
  queue <- mergeLoop (length (array queue)) queue ;;
  Ok (fst (extractMin queue)).

(** ** Code table *)

(** [char codes[256][256]]: one string per [unsigned char]. *)
Definition CodeTable : Type := ascii -> list ascii.

(** A zero-initialised table, as [main] declares it. *)
Definition emptyCodes : CodeTable := fun _ => [].

Definition setCode (codes : CodeTable) (c : ascii) (code : list ascii) : CodeTable :=
  fun c' => if Ascii.eqb c' c then code else codes c'.

(** printCodes (line 256) takes a row to hold a code when it is not the
    empty string. *)
Definition hasCode (codes : CodeTable) (c : ascii) : bool :=
  match codes c with
  | [] => false
  | _ :: _ => true
  end.

(** isalpha of <ctype.h> in the C locale. *)
Definition isalpha (c : ascii) : bool :=
  let n := N_of_ascii c in
  ((65 <=? n)%N && (n <=? 90)%N) || ((97 <=? n)%N && (n <=? 122)%N).

(** storeCodes (lines 153-172).  [code] is [code[0..top)], the path walked
    so far.  This is the table the call leaves when each of its writes falls
    inside [char code[256]] and the 256-byte rows, which
    [storeCodesInBounds] decides; a call that writes past them has no
    defined result. *)
Fixpoint storeCodes (root : HuffmanNode) (code : list ascii) (codes : CodeTable)
  : CodeTable :=
  match root with
  | mkNode d _ l r =>
      if isNull l && isNull r && isalpha d then setCode codes d code
      else
        let codes1 :=
          match l with
          | Some l' => storeCodes l' (code ++ ["0"%char]) codes
          | None => codes
          end in
        match r with
        | Some r' => storeCodes r' (code ++ ["1"%char]) codes1
        | None => codes1
        end
  end.

(** Whether the writes of [storeCodes (root, code, top, codes)] stay inside
    the buffers: [code[top]] (lines 156, 163, 169) needs [top < 256], and
    the strcpy of line 157 then copies [top + 1 <= 256] bytes into a row. *)
Fixpoint storeCodesInBounds (root : HuffmanNode) (top : nat) : bool :=
  match root with
  | mkNode d _ l r =>
      if isNull l && isNull r && isalpha d then (top <? 256)%nat
      else
        match l with
        | Some l' => (top <? 256)%nat && storeCodesInBounds l' (S top)
        | None => true
        end &&
        match r with
        | Some r' => (top <? 256)%nat && storeCodesInBounds r' (S top)
        | None => true
        end
  end.

(** generateHuffmanCodes (lines 175-178), with [char code[256]] and
    [top = 0]: the table it leaves when [generateHuffmanCodesInBounds]
    holds. *)
Definition generateHuffmanCodes (root : HuffmanNode) (codes : CodeTable) : CodeTable :=
  storeCodes root [] codes.

Definition generateHuffmanCodesInBounds (root : HuffmanNode) : bool :=
  storeCodesInBounds root 0.

(** ** Transcoder *)

(** The loop of lines 192-198, with [encodedData] as accumulator. *)
Fixpoint encodeLoop (data : list ascii) (codes : CodeTable) (encodedData : list ascii)
  : list ascii :=
  match data with
  | [] => encodedData
  | c :: data' => encodeLoop data' codes ((encodedData ++ codes c) ++ [" "%char])
  end.

(** encodeData (lines 181-202).  Its only error exit is the NULL returned
    when malloc fails. *)
Definition encodeData (data : list ascii) (codes : CodeTable) : result (list ascii) :=
  Ok (encodeLoop data codes []).

Definition isLeaf (n : HuffmanNode) : bool := isNull (left n) && isNull (right n).

(** Lines 235-237: a delimiter that follows an emitted symbol is skipped. *)
Definition skipDelimiter (rest : list ascii) : list ascii :=
  match rest with
  | c :: rest' => if Ascii.eqb c " " then rest' else rest
  | [] => rest
  end.

(** The loop of lines 218-239; [currentNode] is never NULL at the head of an
    iteration, the output is returned in order. *)
Fixpoint decodeLoop (root currentNode : HuffmanNode) (encodedData : list ascii)
  : result (list ascii) :=
  match encodedData with
  | [] => Ok []
  | c :: rest =>
      let moved :=
        if Ascii.eqb c "0" then left currentNode
        else if Ascii.eqb c "1" then right currentNode
        else Some currentNode in
      n <- deref moved ;;
      if isLeaf n || Ascii.eqb c " " then
        out <- decodeLoop root root (skipDelimiter rest) ;;
        Ok (data n :: out)
      else decodeLoop root n rest
  end.

(** decodeData (lines 205-245). *)
Definition decodeData (root : HuffmanNode) (encodedData : list ascii)
  : result (list ascii) :=
  decodeLoop root root encodedData.

(** ** Printing, freeing, files and [main] *)

(** One turn of the loop of lines 253-260: the line printed for the
    character of code [i], if its row holds a code. *)
Definition printCodesLine (codes : CodeTable) (i : nat) : list ascii :=
  let c := ascii_of_nat i in
  if hasCode codes c
  then (c :: [":"; " "]%char) ++ codes c ++ ["010"%char]
  else [].

(** printCodes (lines 248-261): the text it writes to stdout. *)
Definition printCodes (codes : CodeTable) : list ascii :=
  ["H"; "u"; "f"; "f"; "m"; "a"; "n"; " "; "C"; "o"; "d"; "e"; "s"; ":";
   "010"]%char ++
  flat_map (printCodesLine codes) (seq 0 256).

(** freeHuffmanTree (lines 265-270): the nodes handed to [free], in the
    order of the calls. *)
Fixpoint freeNodes (root : HuffmanNode) : list HuffmanNode :=
  match root with
  | mkNode _ _ l r =>
      match l with
      | Some l' => freeNodes l'
      | None => []
      end ++
      match r with
      | Some r' => freeNodes r'
      | None => []
      end ++ [root]
  end.

Definition freeHuffmanTree (root : option HuffmanNode) : list HuffmanNode :=
  match root with
  | None => []
  | Some n => freeNodes n
  end.

(** The C string held by a buffer: the bytes before the first NUL. *)
Fixpoint cString (bytes : list ascii) : list ascii :=
  match bytes with
  | [] => []
  | c :: bytes' => if Ascii.eqb c "000" then [] else c :: cString bytes'
  end.

(** encodeTextFromFile (lines 274-318).  [inputFile] is what fopen finds
    under the name: nothing, or the bytes of the file.  The result is the
    pointer returned, NULL when the file cannot be opened. *)
Definition encodeTextFromFile (root : HuffmanNode) (codes : CodeTable)
           (inputFile : option (list ascii)) : result (option (list ascii)) :=
  match inputFile with
  | None => Ok None
  | Some fileContent =>
      encodedData <- encodeData (cString fileContent) codes ;;
      Ok (Some encodedData)
  end.

(** The tables of [main] (lines 323-337); [letters] ends with the NUL of
    the string literal, which [sizeof] counts. *)
Definition letters : list ascii :=
  ["a"; "b"; "c"; "d"; "e"; "f"; "g"; "h"; "i"; "j"; "k"; "l"; "m"; "n";
   "o"; "p"; "q"; "r"; "s"; "t"; "u"; "v"; "w"; "x"; "y"; "z"; "A"; "B";
   "C"; "D"; "E"; "F"; "G"; "H"; "I"; "J"; "K"; "L"; "M"; "O"; "P"; "Q";
   "R"; "S"; "T"; "U"; "V"; "W"; "X"; "Y"; "Z"; "000"]%char.

Definition english_freq : list Z :=
  [834; 154; 273; 414; 1260; 203; 192; 611; 671; 23; 87; 424; 253; 680;
   770; 166; 9; 568; 611; 937; 285; 106; 234; 20; 204; 6; 834; 154; 273;
   414; 1260; 203; 192; 611; 671; 23; 87; 424; 253; 680; 770; 166; 9; 568;
   611; 937; 285; 106; 234; 20; 204; 6]%Z.

Definition french_freq : list Z :=
  [813; 93; 315; 355; 1510; 96; 97; 108; 694; 71; 16; 568; 323; 642; 527;
   303; 89; 643; 791; 711; 605; 183; 4; 42; 19; 106; 813; 93; 315; 355;
   1510; 96; 97; 108; 694; 71; 16; 568; 323; 642; 527; 303; 89; 643; 791;
   711; 605; 183; 4; 42; 19; 106]%Z.

Definition englishInputFilename : list ascii :=
  ["e"; "n"; "g"; "l"; "i"; "s"; "h"; "_"; "i"; "n"; "p"; "u"; "t"; ".";
   "t"; "x"; "t"]%char.

Definition frenchInputFilename : list ascii :=
  ["f"; "r"; "e"; "n"; "c"; "h"; "_"; "i"; "n"; "p"; "u"; "t"; "."; "t";
   "x"; "t"]%char.

(** main (lines 321-389): the text written to stdout when it returns.
    [fs] gives the bytes of the file of a given name, if it can be opened.
    A NULL handed to printf's %s or to decodeData is a null dereference. *)
Definition main (fs : list ascii -> option (list ascii)) : result (list ascii) :=
  let size := 52%Z in
  english_root <- buildHuffmanTree letters english_freq size ;;
  french_root <- buildHuffmanTree letters french_freq size ;;
  english_node <- deref english_root ;;
  let english_codes := generateHuffmanCodes english_node emptyCodes in
  french_node <- deref french_root ;;
  let french_codes := generateHuffmanCodes french_node emptyCodes in
  let out :=
      ["E"; "n"; "g"; "l"; "i"; "s"; "h"; " "; "H"; "u"; "f"; "f"; "m"; "a";
       "n"; " "; "C"; "o"; "d"; "e"; "s"; ":"; "010"]%char ++
      printCodes english_codes ++
      ["010"; "F"; "r"; "e"; "n"; "c"; "h"; " "; "H"; "u"; "f"; "f"; "m"; "a";
       "n"; " "; "C"; "o"; "d"; "e"; "s"; ":"; "010"]%char ++
      printCodes french_codes in
  english_encodedData <-
    encodeTextFromFile english_node english_codes (fs englishInputFilename) ;;
  english_encoded <- deref english_encodedData ;;
  let out := out ++
      ["010"; "E"; "n"; "c"; "o"; "d"; "e"; "d"; " "; "E"; "n"; "g"; "l"; "i";
       "s"; "h"; " "; "T"; "e"; "x"; "t"; ":"; "010"]%char ++
      english_encoded ++ ["010"%char] in
  english_decodedData <- decodeData english_node english_encoded ;;
  let out := out ++
      ["010"; "D"; "e"; "c"; "o"; "d"; "e"; "d"; " "; "E"; "n"; "g"; "l"; "i";
       "s"; "h"; " "; "T"; "e"; "x"; "t"; ":"; "010"]%char ++
      english_decodedData ++ ["010"%char] in
  french_encodedData <-
    encodeTextFromFile french_node french_codes (fs frenchInputFilename) ;;
  french_encoded <- deref french_encodedData ;;
  let out := out ++
      ["010"; "E"; "n"; "c"; "o"; "d"; "e"; "d"; " "; "F"; "r"; "e"; "n"; "c";
       "h"; " "; "T"; "e"; "x"; "t"; ":"; "010"]%char ++
      french_encoded ++ ["010"%char] in
  french_decodedData <- decodeData french_node french_encoded ;;
  let out := out ++
      ["010"; "D"; "e"; "c"; "o"; "d"; "e"; "d"; " "; "F"; "r"; "e"; "n"; "c";
       "h"; " "; "T"; "e"; "x"; "t"; ":"; "010"]%char ++
      french_decodedData ++ ["010"%char] in
  Ok out.

Close Scope result_scope.

(** * Notions used to state the properties *)

(** Induction over nodes, through the two child pointers. *)
Section NodeInduction.
Variable P : HuffmanNode -> Prop.

Definition onChild (p : option HuffmanNode) : Prop :=
  match p with
  | Some t => P t
  | None => True
  end.

Hypothesis node_case :
  forall d f l r, onChild l -> onChild r -> P (mkNode d f l r).

Fixpoint HuffmanNode_ind (n : HuffmanNode) : P n :=
  match n with
  | mkNode d f l r =>
      @node_case d f l r
        (match l as p return onChild p with
         | Some t => HuffmanNode_ind t
         | None => I
         end)
        (match r as p return onChild p with
         | Some t => HuffmanNode_ind t
         | None => I
         end)
  end.
End NodeInduction.

(** The leaves of a tree, left to right, each with the '0'/'1' path that
    leads to it. *)
Fixpoint leafPaths (root : HuffmanNode) : list (ascii * list ascii) :=
  match root with
  | mkNode d _ l r =>
      if isNull l && isNull r then [(d, [])]
      else
        match l with
        | Some l' => map (fun sp => (fst sp, "0"%char :: snd sp)) (leafPaths l')
        | None => []
        end ++
        match r with
        | Some r' => map (fun sp => (fst sp, "1"%char :: snd sp)) (leafPaths r')
        | None => []
        end
  end.

Definition leafSymbols (root : HuffmanNode) : list ascii :=
  map fst (leafPaths root).

(** Every node has no child or two. *)
Inductive full : HuffmanNode -> Prop :=
| full_leaf : forall d f, full (mkNode d f NULL NULL)
| full_node : forall d f l r,
    full l -> full r -> full (mkNode d f (Some l) (Some r)).

(** The queue array is sorted by ascending weight. *)
Definition ascending (arr : list HuffmanNode) : Prop :=
  StronglySorted (fun a b => (freq a <= freq b)%Z) arr.

(** The array after a successful insertion. *)
Definition insertArray (arr : list HuffmanNode) (node : HuffmanNode)
  : list HuffmanNode :=
  shiftGreater (rev arr) node [].

(** Insertion from the front: after every node that is not heavier. *)
Fixpoint insertAfterEqual (node : HuffmanNode) (arr : list HuffmanNode)
  : list HuffmanNode :=
  match arr with
  | [] => [node]
  | x :: arr' =>
      if (freq x >? freq node)%Z then node :: arr
      else x :: insertAfterEqual node arr'
  end.

(** The parallel arrays hold [size] entries each. *)
Definition tableOfSize (data : list ascii) (freq : list Z) (size : Z) : Prop :=
  Z.of_nat (length data) = size /\ Z.of_nat (length freq) = size.

(** The initial leaves, in table order. *)
Definition leavesOf (data : list ascii) (freq : list Z) : list HuffmanNode :=
  map (fun df => createHuffmanNode (fst df) (snd df)) (combine data freq).


(** The sequence of writes storeCodes performs for a list of leaves. *)
Definition writeLeaf (code : list ascii) (codes : CodeTable)
           (sp : ascii * list ascii) : CodeTable :=
  if isalpha (fst sp) then setCode codes (fst sp) (code ++ snd sp) else codes.

(** The encoded stream: each code followed by one delimiter. *)
Definition encodedStream (codes : CodeTable) (text : list ascii) : list ascii :=
  flat_map (fun c => codes c ++ [" "%char]) text.

(** The internal node of line 137-141. *)
Definition mergeNodes (l r : HuffmanNode) : HuffmanNode :=
  mkNode "$" (uadd (freq l) (freq r)) (Some l) (Some r).

(** The merge loop on the array alone: what [mergeLoop] computes while no
    insertion finds the queue full. *)
Fixpoint mergeArray (fuel : nat) (arr : list HuffmanNode) : list HuffmanNode :=
  match fuel with
  | O => arr
  | S fuel' =>
      match arr with
      | l :: r :: rest => mergeArray fuel' (insertArray rest (mergeNodes l r))
      | _ => arr
      end
  end.

(** The queue array after the seeding loop. *)
Definition seededArray (data : list ascii) (freq : list Z) : list HuffmanNode :=
  fold_left insertArray (leavesOf data freq) [].

(** Encoding then decoding, as [main] chains them (lines 365-367). *)
Definition transcode (root : HuffmanNode) (codes : CodeTable) (text : list ascii)
  : result (list ascii) :=
  bind (encodeData text codes) (decodeData root).

(** [bits] stops short of the end of the code of a letter of the table. *)
Definition cutCode (data : list ascii) (codes : CodeTable) (bits : list ascii)
  : Prop :=
  exists c q, In c data /\ isalpha c = true /\ q <> [] /\ codes c = bits ++ q.

(** Index at which [insertAfterEqual] puts the node. *)
Fixpoint insertPos (node : HuffmanNode) (arr : list HuffmanNode) : nat :=
  match arr with
  | [] => 0
  | x :: arr' =>
      if (freq x >? freq node)%Z then 0 else S (insertPos node arr')
  end.

(** For each node of the queue, in order, its depth in the tree the merge
    loop ends with: the two nodes merged lie one level below the new node,
    which is found at its insertion index in the next queue. *)
Fixpoint queueDepths (fuel : nat) (arr : list HuffmanNode) : list nat :=
  match fuel with
  | O => map (fun _ => 0%nat) arr
  | S fuel' =>
      match arr with
      | l :: r :: rest =>
          let top := mergeNodes l r in
          let k := insertPos top rest in
          let ds := queueDepths fuel' (insertArray rest top) in
          let d := S (nth k ds 0%nat) in
          d :: d :: firstn k ds ++ skipn (S k) ds
      | _ => map (fun _ => 0%nat) arr
      end
  end.

(** [occursAt root t d]: [t] is a subtree of [root], [d] levels down. *)
Inductive occursAt : HuffmanNode -> HuffmanNode -> nat -> Prop :=
| occurs_here : forall t, occursAt t t 0
| occurs_left : forall root l t d,
    left root = Some l -> occursAt l t d -> occursAt root t (S d)
| occurs_right : forall root r t d,
    right root = Some r -> occursAt r t d -> occursAt root t (S d).

Definition nonincreasing (ds : list nat) : Prop :=
  StronglySorted (fun a b => (b <= a)%nat) ds.

Definition totalFreq (arr : list HuffmanNode) : Z :=
  fold_right (fun t s => (freq t + s)%Z) 0%Z arr.

(** A sorted queue of non-negative weights whose sum fits in [unsigned]:
    no addition of the merge loop wraps. *)
Definition exactQueue (arr : list HuffmanNode) : Prop :=
  ascending arr /\
  Forall (fun t => (0 <= freq t)%Z) arr /\
  (totalFreq arr < UINT_MODULUS)%Z.

Definition sumFreq (freq : list Z) : Z := fold_right Z.add 0%Z freq.

(** Code length is monotone in frequency over the whole table: of two
    entries the one of strictly lower frequency has a code no shorter. *)
Definition lengthMonotone (data : list ascii) (freq : list Z) (codes : CodeTable)
  : Prop :=
  forall c1 f1 c2 f2,
    In (c1, f1) (combine data freq) ->
    In (c2, f2) (combine data freq) ->
    (f1 < f2)%Z ->
    (length (codes c2) <= length (codes c1))%nat.

(** The leaves of a tree, left to right, as (symbol, weight) pairs. *)
Fixpoint leafEntries (root : HuffmanNode) : list (ascii * Z) :=
  match root with
  | mkNode d f l r =>
      if isNull l && isNull r then [(d, f)]
      else
        match l with
        | Some l' => leafEntries l'
        | None => []
        end ++
        match r with
        | Some r' => leafEntries r'
        | None => []
        end
  end.

(** The trees the merge loop makes: leaves, and '$' nodes over two such
    trees whose weight is the wrapped sum of the children's weights. *)
Inductive merged : HuffmanNode -> Prop :=
| merged_leaf : forall d f, merged (mkNode d f NULL NULL)
| merged_node : forall l r,
    merged l -> merged r ->
    merged (mkNode "$" (uadd (freq l) (freq r)) (Some l) (Some r)).

Definition isBit (c : ascii) : bool := Ascii.eqb c "0" || Ascii.eqb c "1".

(** What becomes of a text in which only the characters accepted by
    [known] have codes: every other character turns into [filler], and the
    unknown character that follows an unknown one is dropped. *)
Definition dropUnknown (known : ascii -> bool) (rest : list ascii) : list ascii :=
  match rest with
  | c :: rest' => if known c then rest else rest'
  | [] => rest
  end.

Fixpoint collapseUnknown (known : ascii -> bool) (filler : ascii)
         (text : list ascii) : list ascii :=
  match text with
  | [] => []
  | c :: rest =>
      if known c then c :: collapseUnknown known filler rest
      else filler :: collapseUnknown known filler (dropUnknown known rest)
  end.

(** The characters [unsigned char] ranges over, in ascending order. *)
Definition allChars : list ascii := map ascii_of_nat (seq 0 256).

Definition inTable (data : list ascii) (c : ascii) : bool :=
  existsb (Ascii.eqb c) data.

(** The line printCodes writes for a character that has a code. *)
Definition codeLine (codes : CodeTable) (c : ascii) : list ascii :=
  (c :: [":"; " "]%char) ++ codes c ++ ["010"%char].

(** The letters of [main]'s table: all but the capital N. *)
Definition mainLetter (c : ascii) : bool :=
  isalpha c && negb (Ascii.eqb c "N").

(** * The priority queue *)

Section Queue.

Lemma shiftGreater_split below node above :
  exists l1 l2,
    rev below = l1 ++ l2 /\
    shiftGreater below node above = l1 ++ node :: l2 ++ above /\
    Forall (fun x => (freq node < freq x)%Z) l2 /\
    (l1 = [] \/ exists l1' y, l1 = l1' ++ [y] /\ (freq y <= freq node)%Z).
Proof.
  revert above.
  induction below as [|x below IH]; intros above; simpl.
  - exists [], []. repeat split; auto.
  - destruct (freq x >? freq node)%Z eqn:Hgt.
    + destruct (IH (x :: above)) as (l1 & l2 & Hrev & Hres & Hall & Hlast).
      exists l1, (l2 ++ [x]). repeat split.
      * rewrite Hrev, app_assoc. reflexivity.
      * rewrite Hres, <- app_assoc. reflexivity.
      * apply Forall_app. split; auto. constructor; auto.
        apply Z.gtb_lt in Hgt. lia.
      * exact Hlast.
    + exists (rev below ++ [x]), []. repeat split; auto.
      * rewrite app_nil_r. reflexivity.
      * right. exists (rev below), x. split; auto.
        rewrite Z.gtb_ltb in Hgt. apply Z.ltb_ge in Hgt. exact Hgt.
Qed.

Lemma insertArray_split arr node :
  exists l1 l2,
    arr = l1 ++ l2 /\
    insertArray arr node = l1 ++ node :: l2 /\
    Forall (fun x => (freq node < freq x)%Z) l2 /\
    (l1 = [] \/ exists l1' y, l1 = l1' ++ [y] /\ (freq y <= freq node)%Z).
Proof.
  unfold insertArray.
  destruct (shiftGreater_split (rev arr) node [])
    as (l1 & l2 & Hrev & Hres & Hall & Hlast).
  rewrite rev_involutive in Hrev. rewrite app_nil_r in Hres.
  exists l1, l2. auto.
Qed.

Lemma ascending_app l1 l2 :
  ascending (l1 ++ l2) ->
  ascending l1 /\ ascending l2 /\
  forall x y, In x l1 -> In y l2 -> (freq x <= freq y)%Z.
Proof.
  unfold ascending. induction l1 as [|a l1 IH]; simpl; intros H.
  - repeat split; auto. constructor. intros x y [].
  - apply StronglySorted_inv in H. destruct H as [H Ha].
    destruct (IH H) as (H1 & H2 & H12).
    apply Forall_app in Ha. destruct Ha as [Ha1 Ha2].
    repeat split; auto.
    + constructor; auto.
    + intros x y [<-|Hx] Hy.
      * rewrite Forall_forall in Ha2. auto.
      * auto.
Qed.

Lemma ascending_join l1 l2 :
  ascending l1 -> ascending l2 ->
  (forall x y, In x l1 -> In y l2 -> (freq x <= freq y)%Z) ->
  ascending (l1 ++ l2).
Proof.
  unfold ascending. induction l1 as [|a l1 IH]; simpl; intros H1 H2 H12; auto.
  apply StronglySorted_inv in H1. destruct H1 as [H1 Ha].
  constructor.
  - apply IH; auto.
  - apply Forall_app. split; auto.
    apply Forall_forall. intros y Hy. apply H12; auto.
Qed.

(** On a sorted array the backward scan puts the node after every node
    that is not heavier, and before every heavier one. *)
Lemma insertArray_sorted arr node :
  ascending arr ->
  exists l1 l2,
    arr = l1 ++ l2 /\
    insertArray arr node = l1 ++ node :: l2 /\
    Forall (fun x => (freq x <= freq node)%Z) l1 /\
    Forall (fun x => (freq node < freq x)%Z) l2.
Proof.
  intros Hs.
  destruct (insertArray_split arr node) as (l1 & l2 & Harr & Hres & Hall & Hlast).
  exists l1, l2. repeat split; auto.
  destruct Hlast as [->|(l1' & y & -> & Hy)]; [constructor|].
  subst arr. apply ascending_app in Hs. destruct Hs as (Hs1 & _ & _).
  apply ascending_app in Hs1. destruct Hs1 as (_ & _ & Hle).
  apply Forall_app. split.
  - apply Forall_forall. intros x Hx.
    specialize (Hle x y Hx (or_introl eq_refl)). lia.
  - constructor; auto.
Qed.

Lemma insertArray_ascending arr node :
  ascending arr -> ascending (insertArray arr node).
Proof.
  intros Hs.
  destruct (insertArray_sorted arr node Hs) as (l1 & l2 & Harr & Hres & Hle & Hgt).
  rewrite Hres. subst arr.
  apply ascending_app in Hs. destruct Hs as (Hs1 & Hs2 & H12).
  apply ascending_join; auto.
  - constructor; auto.
    eapply Forall_impl; [|exact Hgt]. simpl. intros; lia.
  - rewrite Forall_forall in Hle, Hgt.
    intros x y Hx [<-|Hy]; auto.
Qed.

Lemma insertAfterEqual_app l1 l2 node :
  Forall (fun x => (freq x <= freq node)%Z) l1 ->
  Forall (fun x => (freq node < freq x)%Z) l2 ->
  insertAfterEqual node (l1 ++ l2) = l1 ++ node :: l2.
Proof.
  intros H1 H2. induction H1 as [|x l1 Hx _ IH]; simpl.
  - destruct H2 as [|y l2 Hy _]; simpl; auto.
    replace (freq y >? freq node)%Z with true; auto.
    symmetry. apply Z.gtb_lt. lia.
  - replace (freq x >? freq node)%Z with false; [rewrite IH; auto|].
    symmetry. rewrite Z.gtb_ltb. apply Z.ltb_ge. lia.
Qed.

Lemma insertArray_insertAfterEqual arr node :
  ascending arr -> insertArray arr node = insertAfterEqual node arr.
Proof.
  intros Hs.
  destruct (insertArray_sorted arr node Hs) as (l1 & l2 & Harr & Hres & Hle & Hgt).
  rewrite Hres, Harr. symmetry. apply insertAfterEqual_app; auto.
Qed.

Lemma insert_not_full queue node :
  size queue <> capacity queue ->
  insertSortedArrayPriorityQueue queue node =
  mkQueue (capacity queue) (insertArray (array queue) node).
Proof.
  intros Hne. unfold insertSortedArrayPriorityQueue.
  destruct (Z.eqb_spec (size queue) (capacity queue)); [contradiction|reflexivity].
Qed.

Lemma insert_full queue node :
  size queue = capacity queue ->
  insertSortedArrayPriorityQueue queue node = queue.
Proof.
  intros He. unfold insertSortedArrayPriorityQueue.
  rewrite He, Z.eqb_refl. reflexivity.
Qed.

Lemma insertArray_perm arr node :
  Permutation (insertArray arr node) (node :: arr).
Proof.
  destruct (insertArray_split arr node) as (l1 & l2 & Harr & Hres & _).
  rewrite Hres, Harr. symmetry. apply Permutation_middle.
Qed.

Lemma insertArray_length arr node :
  length (insertArray arr node) = S (length arr).
Proof.
  apply (Permutation_length (insertArray_perm arr node)).
Qed.

End Queue.

(** * Tree construction *)

Section Build.

Lemma index_app_here (A : Type) (pre : list A) x post :
  index (pre ++ x :: post) (length pre) = Ok x.
Proof.
  unfold index. rewrite nth_error_app2 by lia.
  rewrite Nat.sub_diag. reflexivity.
Qed.

Lemma seedLoop_fold drest :
  forall dpre fpre frest queue,
    length drest = length frest ->
    length dpre = length fpre ->
    seedLoop (length drest) (length dpre) (dpre ++ drest) (fpre ++ frest) queue =
    Ok (fold_left insertSortedArrayPriorityQueue (leavesOf drest frest) queue).
Proof.
  induction drest as [|d drest IH]; intros dpre fpre frest queue Hlen Hpre.
  - reflexivity.
  - destruct frest as [|f frest]; [discriminate|].
    simpl in Hlen. injection Hlen as Hlen.
    cbn [length seedLoop]. rewrite index_app_here.
    rewrite Hpre, index_app_here. cbn [bind].
    replace (S (length fpre)) with (length (dpre ++ [d]))
      by (rewrite length_app; simpl; lia).
    replace (dpre ++ d :: drest) with ((dpre ++ [d]) ++ drest)
      by (rewrite <- app_assoc; reflexivity).
    replace (fpre ++ f :: frest) with ((fpre ++ [f]) ++ frest)
      by (rewrite <- app_assoc; reflexivity).
    rewrite IH; auto.
    rewrite !length_app. simpl. lia.
Qed.

Lemma insert_fold leaves :
  forall queue,
    (size queue + Z.of_nat (length leaves) <= capacity queue)%Z ->
    fold_left insertSortedArrayPriorityQueue leaves queue =
    mkQueue (capacity queue) (fold_left insertArray leaves (array queue)).
Proof.
  induction leaves as [|x leaves IH]; intros queue Hcap.
  - destruct queue; reflexivity.
  - cbn [fold_left]. cbn [length] in Hcap.
    rewrite insert_not_full by (unfold size in *; lia).
    rewrite IH; [reflexivity|].
    unfold size in *. cbn [capacity array].
    rewrite insertArray_length. lia.
Qed.

Lemma leavesOf_length data freq :
  length data = length freq -> length (leavesOf data freq) = length data.
Proof.
  intros H. unfold leavesOf. rewrite length_map, length_combine. lia.
Qed.

Lemma fold_insertArray_perm leaves :
  forall arr, Permutation (fold_left insertArray leaves arr) (arr ++ leaves).
Proof.
  induction leaves as [|x leaves IH]; intros arr; simpl.
  - rewrite app_nil_r. reflexivity.
  - rewrite IH.
    transitivity ((x :: arr) ++ leaves).
    + apply Permutation_app_tail, insertArray_perm.
    + apply Permutation_middle.
Qed.

Lemma fold_insertArray_ascending leaves :
  forall arr, ascending arr -> ascending (fold_left insertArray leaves arr).
Proof.
  induction leaves as [|x leaves IH]; intros arr Hs; simpl; auto.
  apply IH, insertArray_ascending, Hs.
Qed.

Lemma seededArray_perm data freq :
  Permutation (seededArray data freq) (leavesOf data freq).
Proof. apply (fold_insertArray_perm (leavesOf data freq) []). Qed.

Lemma seededArray_ascending data freq : ascending (seededArray data freq).
Proof. apply fold_insertArray_ascending. constructor. Qed.

Lemma seededArray_length data freq :
  length data = length freq -> length (seededArray data freq) = length data.
Proof.
  intros H. rewrite (Permutation_length (seededArray_perm data freq)).
  apply leavesOf_length, H.
Qed.

Lemma seedLoop_table data freq sz :
  tableOfSize data freq sz ->
  seedLoop (Z.to_nat sz) 0 data freq (createSortedArrayPriorityQueue sz) =
  Ok (mkQueue sz (seededArray data freq)).
Proof.
  intros [Hd Hf].
  assert (Hlen : length data = length freq) by lia.
  replace (Z.to_nat sz) with (length data) by lia.
  rewrite (seedLoop_fold data [] [] freq _ Hlen eq_refl).
  rewrite insert_fold; [reflexivity|].
  unfold size. cbn [createSortedArrayPriorityQueue capacity array length].
  rewrite leavesOf_length by auto. lia.
Qed.

Lemma mergeLoop_array fuel :
  forall queue,
    (size queue <= capacity queue)%Z ->
    mergeLoop fuel queue =
    Ok (mkQueue (capacity queue) (mergeArray fuel (array queue))).
Proof.
  induction fuel as [|fuel IH]; intros [cap arr] Hcap.
  - reflexivity.
  - unfold size in Hcap. cbn [capacity array] in *.
    destruct arr as [|l [|r rest]].
    + reflexivity.
    + reflexivity.
    + cbn [mergeLoop mergeArray].
      replace (size (mkQueue cap (l :: r :: rest)) >? 1)%Z with true
        by (symmetry; apply Z.gtb_lt; unfold size; cbn [array length]; lia).
      cbn [extractMin array capacity deref bind].
      rewrite insert_not_full
        by (unfold size; cbn [array capacity length] in *; lia).
      rewrite IH.
      * reflexivity.
      * unfold size. cbn [array capacity length] in *.
        rewrite insertArray_length. lia.
Qed.

(** The loop leaves by its test, not by lack of fuel. *)
Lemma mergeArray_root fuel :
  forall arr,
    (1 <= length arr <= S fuel)%nat ->
    exists root,
      mergeArray fuel arr = [root] /\
      ((2 <= length arr)%nat -> isLeaf root = false).
Proof.
  induction fuel as [|fuel IH]; intros arr Hlen.
  - destruct arr as [|x [|y arr]]; simpl in Hlen; try lia.
    exists x. split; [reflexivity|simpl; lia].
  - destruct arr as [|l [|r rest]]; simpl in Hlen; try lia.
    + exists l. split; [reflexivity|simpl; lia].
    + cbn [mergeArray].
      destruct (IH (insertArray rest (mergeNodes l r))) as (root & Hroot & Hleaf).
      { rewrite insertArray_length. lia. }
      exists root. split; auto. intros _.
      destruct rest as [|x rest].
      * unfold insertArray in Hroot. simpl in Hroot.
        destruct fuel; simpl in Hroot; injection Hroot as <-; reflexivity.
      * apply Hleaf. rewrite insertArray_length. simpl. lia.
Qed.

Lemma mergeLoop_exit queue :
  (size queue <= capacity queue)%Z ->
  exists queue',
    mergeLoop (length (array queue)) queue = Ok queue' /\
    (size queue' <= 1)%Z.
Proof.
  intros Hcap. rewrite mergeLoop_array by auto.
  eexists. split; [reflexivity|].
  unfold size. cbn [array].
  destruct (array queue) as [|x arr] eqn:Harr.
  - simpl. lia.
  - destruct (mergeArray_root (length (x :: arr)) (x :: arr)) as (root & -> & _).
    + simpl. lia.
    + simpl. lia.
Qed.

(** A predicate kept by every merge step holds when the loop ends. *)
Lemma mergeArray_invariant (Inv : list HuffmanNode -> Prop) :
  (forall l r rest,
      Inv (l :: r :: rest) -> Inv (insertArray rest (mergeNodes l r))) ->
  forall fuel arr, Inv arr -> Inv (mergeArray fuel arr).
Proof.
  intros Hstep. induction fuel as [|fuel IH]; intros arr Hinv; simpl; auto.
  destruct arr as [|l [|r rest]]; auto.
Qed.

Lemma buildHuffmanTree_array data freq sz :
  tableOfSize data freq sz ->
  buildHuffmanTree data freq sz =
  Ok (hd_error (mergeArray (length data) (seededArray data freq))).
Proof.
  intros Htab. unfold buildHuffmanTree.
  rewrite seedLoop_table by auto. cbn [bind array].
  destruct Htab as [Hd Hf].
  rewrite mergeLoop_array.
  - cbn [bind capacity array]. rewrite seededArray_length by lia.
    unfold extractMin. cbn [array].
    destruct (mergeArray (length data) (seededArray data freq)); reflexivity.
  - unfold size. cbn [capacity array]. rewrite seededArray_length by lia. lia.
Qed.

End Build.

(** * Shape of the built tree *)

Section Shape.

Lemma leafSymbols_mergeNodes l r :
  leafSymbols (mergeNodes l r) = leafSymbols l ++ leafSymbols r.
Proof.
  unfold leafSymbols, mergeNodes. cbn [leafPaths isNull andb].
  rewrite map_app, !map_map. reflexivity.
Qed.

Lemma leafSymbols_leavesOf data freq :
  length data = length freq ->
  flat_map leafSymbols (leavesOf data freq) = data.
Proof.
  revert freq. induction data as [|d data IH]; intros [|f freq] H;
    try discriminate; auto.
  simpl in *. f_equal. apply IH. lia.
Qed.

Lemma leavesOf_full data freq : Forall full (leavesOf data freq).
Proof.
  unfold leavesOf. apply Forall_forall. intros x Hx.
  apply in_map_iff in Hx. destruct Hx as (df & <- & _). constructor.
Qed.

Lemma isLeaf_leafPaths n :
  isLeaf n = true -> leafPaths n = [(data n, [])].
Proof.
  destruct n as [d f l r]. unfold isLeaf. simpl. intros ->. reflexivity.
Qed.

Lemma full_isLeaf n :
  full n -> isLeaf n = false -> exists l r, left n = Some l /\ right n = Some r /\ full l /\ full r.
Proof.
  intros [d f|d f l r Hl Hr]; simpl.
  - discriminate.
  - intros _. exists l, r. auto.
Qed.

(** The tree the builder returns for a table of at least one entry. *)
Lemma buildHuffmanTree_root data freq sz :
  tableOfSize data freq sz ->
  (1 <= sz)%Z ->
  exists root,
    buildHuffmanTree data freq sz = Ok (Some root) /\
    full root /\
    Permutation (leafSymbols root) data /\
    ((2 <= sz)%Z -> isLeaf root = false).
Proof.
  intros Htab Hsz. rewrite buildHuffmanTree_array by auto.
  destruct Htab as [Hd Hf].
  assert (Hlen : length data = length freq) by lia.
  destruct (mergeArray_root (length data) (seededArray data freq))
    as (root & Hroot & Hleaf).
  { rewrite seededArray_length by auto. lia. }
  exists root. rewrite Hroot. split; [reflexivity|].
  assert (Hinv : Forall full [root] /\
                 Permutation (flat_map leafSymbols [root]) data).
  { rewrite <- Hroot.
    apply (mergeArray_invariant
             (fun arr => Forall full arr /\
                         Permutation (flat_map leafSymbols arr) data)).
    - intros l r rest [Hfull Hperm]. split.
      + eapply Permutation_Forall.
        * symmetry. apply insertArray_perm.
        * inversion Hfull as [|? ? Hl Hrest]; subst.
          inversion Hrest as [|? ? Hr Hrest']; subst.
          constructor; auto. constructor; auto.
      + rewrite (Permutation_flat_map leafSymbols
                   (insertArray_perm rest (mergeNodes l r))).
        cbn [flat_map] in *. rewrite leafSymbols_mergeNodes, <- app_assoc.
        exact Hperm.
    - split.
      + eapply Permutation_Forall.
        * symmetry. apply seededArray_perm.
        * apply leavesOf_full.
      + rewrite (Permutation_flat_map leafSymbols (seededArray_perm data freq)).
        rewrite leafSymbols_leavesOf by auto. reflexivity. }
  destruct Hinv as [Hfull Hperm]. split; [|split].
  - inversion Hfull; auto.
  - cbn [flat_map] in Hperm. rewrite app_nil_r in Hperm. exact Hperm.
  - intros H2. apply Hleaf. rewrite seededArray_length by auto. lia.
Qed.

Lemma buildHuffmanTree_single d f :
  buildHuffmanTree [d] [f] 1 = Ok (Some (createHuffmanNode d f)).
Proof. reflexivity. Qed.

Lemma buildHuffmanTree_none data freq sz :
  (sz <= 0)%Z -> buildHuffmanTree data freq sz = Ok NULL.
Proof.
  intros H. unfold buildHuffmanTree.
  replace (Z.to_nat sz) with 0%nat by lia. reflexivity.
Qed.

End Shape.

(** * The code table *)

Section Codes.

Lemma fold_writeLeaf_map b code L :
  forall codes,
    fold_left (writeLeaf code) (map (fun sp => (fst sp, b :: snd sp)) L) codes =
    fold_left (writeLeaf (code ++ [b])) L codes.
Proof.
  induction L as [|[s p] L IH]; intros codes; simpl; auto.
  rewrite <- IH. unfold writeLeaf. simpl.
  rewrite <- app_assoc. reflexivity.
Qed.

(** storeCodes writes the leaves' paths, left to right, skipping the
    leaves whose character is not a letter. *)
Lemma storeCodes_writes root :
  forall code codes,
    storeCodes root code codes =
    fold_left (writeLeaf code) (leafPaths root) codes.
Proof.
  induction root as [d f l r IHl IHr] using HuffmanNode_ind.
  intros code codes. cbn [storeCodes leafPaths].
  destruct l as [l|], r as [r|]; cbn [isNull andb onChild] in *.
  - rewrite fold_left_app, !fold_writeLeaf_map, IHl, IHr. reflexivity.
  - rewrite app_nil_r, fold_writeLeaf_map, IHl. reflexivity.
  - cbn [app]. rewrite fold_writeLeaf_map, IHr. reflexivity.
  - unfold writeLeaf. cbn [fold_left fst snd]. rewrite app_nil_r.
    destruct (isalpha d); reflexivity.
Qed.

Lemma writes_cases code L :
  forall codes c,
    (fold_left (writeLeaf code) L codes c = codes c /\
     forall p, In (c, p) L -> isalpha c = false) \/
    (exists p, In (c, p) L /\ isalpha c = true /\
               fold_left (writeLeaf code) L codes c = code ++ p).
Proof.
  induction L as [|[s p] L IH] using rev_ind; intros codes c.
  - left. split; auto. intros p [].
  - rewrite fold_left_app. cbn [fold_left]. unfold writeLeaf at 1 3.
    cbn [fst snd].
    destruct (isalpha s) eqn:Hs.
    + unfold setCode. destruct (Ascii.eqb_spec c s) as [->|Hne].
      * right. exists p. split; [apply in_or_app; right; left; auto|auto].
      * destruct (IH codes c) as [[Heq Hno]|(p' & Hin & Ha & Heq)].
        -- left. split; auto. intros p' Hin.
           apply in_app_or in Hin. destruct Hin as [Hin|[Hin|[]]]; eauto.
           congruence.
        -- right. exists p'. split; [apply in_or_app; auto|auto].
    + destruct (IH codes c) as [[Heq Hno]|(p' & Hin & Ha & Heq)].
      * left. split; auto. intros p' Hin.
        apply in_app_or in Hin. destruct Hin as [Hin|[Hin|[]]]; eauto.
        congruence.
      * right. exists p'. split; [apply in_or_app; auto|auto].
Qed.

Lemma generateHuffmanCodes_cases root codes c :
  (generateHuffmanCodes root codes c = codes c /\
   forall p, In (c, p) (leafPaths root) -> isalpha c = false) \/
  (exists p, In (c, p) (leafPaths root) /\ isalpha c = true /\
             generateHuffmanCodes root codes c = p).
Proof.
  unfold generateHuffmanCodes. rewrite storeCodes_writes.
  exact (writes_cases [] (leafPaths root) codes c).
Qed.

Lemma In_leafSymbols root c :
  In c (leafSymbols root) <-> exists p, In (c, p) (leafPaths root).
Proof.
  unfold leafSymbols. rewrite in_map_iff. split.
  - intros ([s p] & <- & Hin). exists p. exact Hin.
  - intros (p & Hin). exists (c, p). auto.
Qed.

(** A letter that labels a leaf gets the path of one of its leaves. *)
Lemma generateHuffmanCodes_letter root codes c :
  In c (leafSymbols root) -> isalpha c = true ->
  exists p, In (c, p) (leafPaths root) /\ generateHuffmanCodes root codes c = p.
Proof.
  intros Hin Ha. apply In_leafSymbols in Hin. destruct Hin as (p0 & Hin).
  destruct (generateHuffmanCodes_cases root codes c)
    as [[_ Hno]|(p & Hp & _ & Heq)].
  - rewrite (Hno _ Hin) in Ha. discriminate.
  - exists p. auto.
Qed.

(** Any other row is left as it was. *)
Lemma generateHuffmanCodes_other root codes c :
  isalpha c = false \/ ~ In c (leafSymbols root) ->
  generateHuffmanCodes root codes c = codes c.
Proof.
  intros Hc.
  destruct (generateHuffmanCodes_cases root codes c)
    as [[Heq _]|(p & Hp & Ha & _)]; auto.
  destruct Hc as [Hc|Hc].
  - congruence.
  - exfalso. apply Hc, In_leafSymbols. eauto.
Qed.


End Codes.

(** * The transcoder *)

Section Transcoder.

Lemma encodeLoop_stream text :
  forall codes acc,
    encodeLoop text codes acc = acc ++ encodedStream codes text.
Proof.
  induction text as [|c text IH]; intros codes acc; simpl.
  - rewrite app_nil_r. reflexivity.
  - rewrite IH, <- !app_assoc. reflexivity.
Qed.

Lemma encodeData_stream text codes :
  encodeData text codes = Ok (encodedStream codes text).
Proof. unfold encodeData. rewrite encodeLoop_stream. reflexivity. Qed.

Lemma leafPaths_inner n s p :
  isLeaf n = false -> In (s, p) (leafPaths n) ->
  (exists l p', left n = Some l /\ p = "0"%char :: p' /\ In (s, p') (leafPaths l)) \/
  (exists r p', right n = Some r /\ p = "1"%char :: p' /\ In (s, p') (leafPaths r)).
Proof.
  destruct n as [d f l r]. unfold isLeaf. cbn [left right leafPaths].
  intros -> Hin. apply in_app_or in Hin. destruct Hin as [Hin|Hin].
  - left. destruct l as [l|]; [|destruct Hin].
    apply in_map_iff in Hin. destruct Hin as ([s' p'] & E & Hin).
    simpl in E. inversion E; subst. eauto.
  - right. destruct r as [r|]; [|destruct Hin].
    apply in_map_iff in Hin. destruct Hin as ([s' p'] & E & Hin).
    simpl in E. inversion E; subst. eauto.
Qed.

Lemma leafPaths_inner_nonempty n s p :
  isLeaf n = false -> In (s, p) (leafPaths n) -> p <> [].
Proof.
  intros Hn Hin.
  destruct (leafPaths_inner n s p Hn Hin) as [(? & ? & _ & -> & _)|(? & ? & _ & -> & _)];
    discriminate.
Qed.

(** Walking the path of a leaf from an inner node emits its character and
    goes back to the root, skipping one delimiter. *)
Lemma decodeLoop_path root p :
  forall cur s suffix,
    isLeaf cur = false -> In (s, p) (leafPaths cur) ->
    decodeLoop root cur (p ++ suffix) =
    bind (decodeLoop root root (skipDelimiter suffix)) (fun out => Ok (s :: out)).
Proof.
  induction p as [|b p IH]; intros cur s suffix Hcur Hin.
  - exfalso. exact (leafPaths_inner_nonempty cur s [] Hcur Hin eq_refl).
  - destruct (leafPaths_inner cur _ _ Hcur Hin)
      as [(n & p' & Hn & E & Hin')|(n & p' & Hn & E & Hin')];
      injection E as -> ->; cbn [app decodeLoop Ascii.eqb Bool.eqb andb];
      rewrite Hn; cbn [deref bind orb];
      destruct (isLeaf n) eqn:Hleaf; cbn [orb].
    + rewrite (isLeaf_leafPaths n Hleaf) in Hin'.
      destruct Hin' as [E|[]]. injection E as <- <-. reflexivity.
    + apply IH; auto.
    + rewrite (isLeaf_leafPaths n Hleaf) in Hin'.
      destruct Hin' as [E|[]]. injection E as <- <-. reflexivity.
    + apply IH; auto.
Qed.

(** Bits that stop inside the tree are dropped without a word. *)
Lemma decodeLoop_cut root bits :
  forall cur s q,
    q <> [] -> In (s, bits ++ q) (leafPaths cur) ->
    decodeLoop root cur bits = Ok [].
Proof.
  induction bits as [|b bits IH]; intros cur s q Hq Hin; [reflexivity|].
  assert (Hcur : isLeaf cur = false).
  { destruct (isLeaf cur) eqn:E; auto.
    rewrite (isLeaf_leafPaths cur E) in Hin. destruct Hin as [E'|[]].
    discriminate. }
  assert (Hinner : forall n, In (s, bits ++ q) (leafPaths n) -> isLeaf n = false).
  { intros n Hn. destruct (isLeaf n) eqn:E; auto.
    rewrite (isLeaf_leafPaths n E) in Hn. destruct Hn as [E'|[]].
    injection E' as _ E'. symmetry in E'. apply app_eq_nil in E'.
    destruct E' as [_ E']. contradiction. }
  destruct (leafPaths_inner cur _ _ Hcur Hin)
    as [(n & p' & Hn & E & Hin')|(n & p' & Hn & E & Hin')];
    simpl in E; injection E as -> <-;
    cbn [decodeLoop Ascii.eqb Bool.eqb andb];
    rewrite Hn; cbn [deref bind];
    rewrite (Hinner n Hin'); cbn [orb]; eapply IH; eauto.
Qed.

Lemma decodeLoop_stream root codes text :
  isLeaf root = false ->
  Forall (fun c => In (c, codes c) (leafPaths root)) text ->
  forall tail,
    decodeLoop root root (encodedStream codes text ++ tail) =
    bind (decodeLoop root root tail) (fun out => Ok (text ++ out)).
Proof.
  intros Hroot Htext tail.
  induction Htext as [|c text Hc _ IH]; simpl.
  - destruct (decodeLoop root root tail); reflexivity.
  - rewrite <- !app_assoc.
    rewrite (decodeLoop_path root (codes c) root c _ Hroot Hc).
    cbn [app skipDelimiter Ascii.eqb Bool.eqb andb]. rewrite IH.
    destruct (decodeLoop root root tail); reflexivity.
Qed.

Lemma skipDelimiter_length rest :
  (length (skipDelimiter rest) <= length rest)%nat.
Proof.
  destruct rest as [|c rest]; simpl; auto.
  destruct (Ascii.eqb c " "); simpl; lia.
Qed.

(** On a tree whose inner nodes all have two children, decoding from an
    inner node never meets a null pointer. *)
Lemma decodeLoop_returns root :
  full root -> isLeaf root = false ->
  forall n enc cur,
    (length enc <= n)%nat -> full cur -> isLeaf cur = false ->
    exists out, decodeLoop root cur enc = Ok out.
Proof.
  intros Hfull Hroot. induction n as [|n IH]; intros enc cur Hlen Hcur Hinner.
  - destruct enc; [|simpl in Hlen; lia]. exists []. reflexivity.
  - destruct enc as [|c rest]; [exists []; reflexivity|].
    simpl in Hlen.
    destruct (full_isLeaf cur Hcur Hinner) as (l & r & Hl & Hr & Fl & Fr).
    assert (Hmoved : exists m,
               (if Ascii.eqb c "0" then left cur
                else if Ascii.eqb c "1" then right cur else Some cur) = Some m
               /\ full m).
    { destruct (Ascii.eqb c "0"); [eauto|].
      destruct (Ascii.eqb c "1"); eauto. }
    destruct Hmoved as (m & Hm & Fm).
    cbn [decodeLoop]. rewrite Hm. cbn [deref bind].
    destruct (isLeaf m || Ascii.eqb c " ") eqn:Hemit.
    + destruct (IH (skipDelimiter rest) root) as (out & ->); auto.
      * pose proof (skipDelimiter_length rest). lia.
      * eexists. reflexivity.
    + apply orb_false_elim in Hemit. destruct Hemit as [Hleaf _].
      apply IH; auto. lia.
Qed.

Lemma decodeLoop_delimiters d f n :
  decodeLoop (createHuffmanNode d f) (createHuffmanNode d f) (repeat " "%char n) =
  Ok (repeat d (Nat.div2 (S n))).
Proof.
  induction n as [n IH] using lt_wf_ind.
  destruct n as [|[|n]]; try reflexivity.
  cbn [repeat decodeLoop skipDelimiter Ascii.eqb Bool.eqb andb].
  cbn [createHuffmanNode left right isLeaf isNull andb orb deref bind].
  change (mkNode d f NULL NULL) with (createHuffmanNode d f).
  rewrite IH by lia. reflexivity.
Qed.

End Transcoder.

(** * Depth of the queued nodes in the final tree *)

Section Depths.

Lemma uadd_exact a b :
  (0 <= a)%Z -> (0 <= b)%Z -> (a + b < UINT_MODULUS)%Z -> uadd a b = (a + b)%Z.
Proof. intros Ha Hb Hlt. unfold uadd. apply Z.mod_small. lia. Qed.

Lemma insertPos_split l1 l2 node :
  Forall (fun x => (freq x <= freq node)%Z) l1 ->
  Forall (fun x => (freq node < freq x)%Z) l2 ->
  insertPos node (l1 ++ l2) = length l1.
Proof.
  intros H1 H2. induction H1 as [|x l1 Hx _ IH]; simpl.
  - destruct H2 as [|y l2 Hy _]; simpl; auto.
    replace (freq y >? freq node)%Z with true; auto.
    symmetry. apply Z.gtb_lt. lia.
  - replace (freq x >? freq node)%Z with false; [rewrite IH; auto|].
    symmetry. rewrite Z.gtb_ltb. apply Z.ltb_ge. lia.
Qed.

Lemma insertPos_le node arr : (insertPos node arr <= length arr)%nat.
Proof.
  induction arr as [|x arr IH]; simpl; auto.
  destruct (freq x >? freq node)%Z; lia.
Qed.

Lemma split_at (k : nat) :
  forall ds : list nat,
    (k < length ds)%nat ->
    ds = firstn k ds ++ nth k ds 0%nat :: skipn (S k) ds.
Proof.
  induction k as [|k IH]; intros [|d ds] Hk; simpl in *; try lia; auto.
  f_equal. apply IH. lia.
Qed.

Lemma queueDepths_length fuel :
  forall arr, length (queueDepths fuel arr) = length arr.
Proof.
  induction fuel as [|fuel IH]; intros arr.
  - apply length_map.
  - destruct arr as [|l [|r rest]]; try reflexivity.
    cbn [queueDepths length]. rewrite length_app, length_firstn, length_skipn.
    rewrite IH, insertArray_length.
    pose proof (insertPos_le (mergeNodes l r) rest). lia.
Qed.

Lemma totalFreq_app l1 l2 :
  totalFreq (l1 ++ l2) = (totalFreq l1 + totalFreq l2)%Z.
Proof.
  unfold totalFreq. induction l1 as [|x l1 IH]; simpl; [reflexivity|].
  rewrite IH. lia.
Qed.

Lemma totalFreq_perm l1 l2 :
  Permutation l1 l2 -> totalFreq l1 = totalFreq l2.
Proof.
  unfold totalFreq. induction 1; simpl; lia.
Qed.

Lemma totalFreq_ge arr x :
  Forall (fun t => (0 <= freq t)%Z) arr -> In x arr ->
  (freq x <= totalFreq arr)%Z.
Proof.
  unfold totalFreq. induction 1 as [|y arr Hy Harr IH]; simpl; intros Hin.
  - destruct Hin.
  - assert (0 <= fold_right (fun t s => freq t + s) 0 arr)%Z.
    { clear IH Hin. induction Harr; simpl; lia. }
    destruct Hin as [->|Hin]; [lia|]. specialize (IH Hin). lia.
Qed.

(** Under [exactQueue] the merged weight is the plain sum, and the next
    queue is exact again. *)
Lemma exactQueue_step l r rest :
  exactQueue (l :: r :: rest) ->
  freq (mergeNodes l r) = (freq l + freq r)%Z /\
  exactQueue (insertArray rest (mergeNodes l r)).
Proof.
  intros (Hs & Hpos & Hsum).
  inversion Hpos as [|? ? Hl Hpos']; subst.
  inversion Hpos' as [|? ? Hr Hposr]; subst.
  assert (Hrest : (0 <= totalFreq rest)%Z).
  { clear -Hposr. unfold totalFreq. induction Hposr; simpl; lia. }
  assert (Hfreq : freq (mergeNodes l r) = (freq l + freq r)%Z).
  { cbn [mergeNodes freq]. apply uadd_exact; auto.
    unfold totalFreq in *. simpl in Hsum. lia. }
  split; auto. split; [|split].
  - apply insertArray_ascending.
    apply (ascending_app [l; r] rest) in Hs. tauto.
  - eapply Permutation_Forall.
    + symmetry. apply insertArray_perm.
    + constructor; auto. lia.
  - rewrite (totalFreq_perm _ _ (insertArray_perm rest (mergeNodes l r))).
    unfold totalFreq in *. simpl in *. lia.
Qed.

(** The shape of one step of [queueDepths] on a sorted queue. *)
Lemma queueDepths_step fuel l r rest :
  ascending rest ->
  exists l1 l2 ds1 dm ds2,
    rest = l1 ++ l2 /\
    insertArray rest (mergeNodes l r) = l1 ++ mergeNodes l r :: l2 /\
    Forall (fun x => (freq x <= freq (mergeNodes l r))%Z) l1 /\
    Forall (fun x => (freq (mergeNodes l r) < freq x)%Z) l2 /\
    queueDepths fuel (l1 ++ mergeNodes l r :: l2) = ds1 ++ dm :: ds2 /\
    length ds1 = length l1 /\
    length ds2 = length l2 /\
    queueDepths (S fuel) (l :: r :: rest) = S dm :: S dm :: ds1 ++ ds2.
Proof.
  intros Hs.
  destruct (insertArray_sorted rest (mergeNodes l r) Hs)
    as (l1 & l2 & Hrest & Hins & Hle & Hgt).
  set (ds := queueDepths fuel (l1 ++ mergeNodes l r :: l2)).
  assert (Hlen : length ds = S (length l1 + length l2)).
  { unfold ds. rewrite queueDepths_length, length_app. simpl. lia. }
  exists l1, l2, (firstn (length l1) ds), (nth (length l1) ds 0%nat),
    (skipn (S (length l1)) ds).
  repeat split; auto.
  - apply split_at. lia.
  - rewrite length_firstn. lia.
  - rewrite length_skipn. lia.
  - assert (Hk : insertPos (mergeNodes l r) rest = length l1).
    { rewrite Hrest. apply insertPos_split; auto. }
    cbn [queueDepths]. rewrite Hins, Hk. reflexivity.
Qed.

Lemma sorted_app_iff (A : Type) (R : A -> A -> Prop) l1 l2 :
  StronglySorted R (l1 ++ l2) <->
  StronglySorted R l1 /\ StronglySorted R l2 /\
  (forall x y, In x l1 -> In y l2 -> R x y).
Proof.
  induction l1 as [|a l1 IH]; simpl.
  - split.
    + intros H. repeat split; auto. constructor. intros x y [].
    + tauto.
  - split.
    + intros H. apply StronglySorted_inv in H. destruct H as [H Ha].
      apply IH in H. destruct H as (H1 & H2 & H12).
      apply Forall_app in Ha. destruct Ha as [Ha1 Ha2].
      repeat split; auto.
      * constructor; auto.
      * intros x y [<-|Hx] Hy; auto.
        rewrite Forall_forall in Ha2. auto.
    + intros (H1 & H2 & H12).
      apply StronglySorted_inv in H1. destruct H1 as [H1 Ha].
      constructor.
      * apply IH. repeat split; auto.
      * apply Forall_app. split; auto.
        apply Forall_forall. intros y Hy. apply H12; auto.
Qed.

Lemma split_length (k : nat) (ds : list nat) :
  (k < length ds)%nat ->
  exists da dy dl, ds = da ++ dy :: dl /\ length da = k.
Proof.
  intros Hk. exists (firstn k ds), (nth k ds 0%nat), (skipn (S k) ds).
  split; [apply split_at, Hk|]. rewrite length_firstn. lia.
Qed.

Lemma app_inj_length (A : Type) (a a' b b' : list A) :
  length a = length a' -> a ++ b = a' ++ b' -> a = a' /\ b = b'.
Proof.
  revert a'. induction a as [|x a IH]; intros [|x' a'] Hlen Heq;
    simpl in *; try discriminate; auto.
  injection Heq as -> Heq. injection Hlen as Hlen.
  destruct (IH a' Hlen Heq) as [-> ->]. auto.
Qed.

(** If a queued node is no heavier than the first two together, the first
    node ends at most one level below it. *)
Lemma first_depth_bound fuel x1 x2 a y b :
  (forall arr, (length arr <= S fuel)%nat -> exactQueue arr ->
               nonincreasing (queueDepths fuel arr)) ->
  exactQueue (x1 :: x2 :: a ++ y :: b) ->
  (length (x1 :: x2 :: a ++ y :: b) <= S (S fuel))%nat ->
  (freq y <= freq x1 + freq x2)%Z ->
  exists e da dy db,
    queueDepths (S fuel) (x1 :: x2 :: a ++ y :: b) = e :: e :: da ++ dy :: db /\
    length da = length a /\
    (e <= S dy)%nat.
Proof.
  intros Hmono Hex Hlen Hy.
  destruct (exactQueue_step _ _ _ Hex) as [Hfreq Hex'].
  assert (Hs : ascending (a ++ y :: b)).
  { destruct Hex as (Hs & _). apply (ascending_app [x1; x2]) in Hs. tauto. }
  destruct (queueDepths_step fuel x1 x2 (a ++ y :: b) Hs)
    as (l1 & l2 & ds1 & dm & ds2 & Hrest & Hins & Hle & Hgt & Hds & Hl1 & Hl2 & Hres).
  rewrite Hins in Hex'.
  assert (Hm : nonincreasing (ds1 ++ dm :: ds2)).
  { rewrite <- Hds. apply Hmono; auto.
    pose proof (f_equal (@length _) Hrest) as Hrl.
    cbn [length] in Hlen. rewrite Hrl in Hlen.
    rewrite length_app in *. cbn [length]. lia. }
  assert (Hnot : ~ In y l2).
  { intros Hin. rewrite Forall_forall in Hgt. specialize (Hgt y Hin).
    cbv beta in Hgt. rewrite Hfreq in Hgt. lia. }
  apply app_eq_app in Hrest. destruct Hrest as (l & [[Ha Hl]|[Hl Hb]]).
  - exfalso. apply Hnot. rewrite Hl. apply in_or_app. right. left. reflexivity.
  - destruct l as [|y' l'].
    + exfalso. apply Hnot. simpl in Hb. rewrite <- Hb. left. reflexivity.
    + simpl in Hb. injection Hb as <- Hb.
      destruct (split_length (length a) ds1) as (da & dy & dl & Hsplit & Hda).
      { rewrite Hl1, Hl, length_app. simpl. lia. }
      exists (S dm), da, dy, (dl ++ ds2). split; [|split]; auto.
      * rewrite Hres, Hsplit, <- app_assoc. reflexivity.
      * apply le_n_S. rewrite Hsplit in Hm.
        apply sorted_app_iff in Hm. destruct Hm as (_ & _ & Hcross).
        apply (Hcross dy dm).
        -- apply in_or_app. right. left. reflexivity.
        -- left. reflexivity.
Qed.

(** Along a sorted queue without overflow, final depths never increase:
    a node extracted earlier ends at least as deep. *)
Lemma queueDepths_nonincreasing fuel :
  forall arr,
    (length arr <= S fuel)%nat -> exactQueue arr ->
    nonincreasing (queueDepths fuel arr).
Proof.
  induction fuel as [fuel IH] using lt_wf_ind. intros arr Hlen Hex.
  destruct fuel as [|fuel].
  { destruct arr as [|x [|y arr]]; simpl in *; try lia; repeat constructor. }
  destruct arr as [|t1 [|t2 rest]]; [repeat constructor..|].
  destruct (exactQueue_step _ _ _ Hex) as [Hfreq Hex'].
  assert (Hs : ascending (t1 :: t2 :: rest)) by (destruct Hex; auto).
  assert (Hsr : ascending rest).
  { apply (ascending_app [t1; t2]) in Hs. tauto. }
  destruct (queueDepths_step fuel t1 t2 rest Hsr)
    as (l1 & l2 & ds1 & dm & ds2 & Hrest & Hins & Hle & Hgt & Hds & Hl1 & Hl2 & Hres).
  rewrite Hins in Hex'. rewrite Hres.
  assert (Hq' : (length (l1 ++ mergeNodes t1 t2 :: l2) <= S fuel)%nat).
  { rewrite length_app. cbn [length] in *.
    rewrite Hrest, length_app in Hlen. lia. }
  assert (Hm : nonincreasing (ds1 ++ dm :: ds2)).
  { rewrite <- Hds. apply IH; auto. }
  pose proof Hm as Hm'.
  apply sorted_app_iff in Hm'. destruct Hm' as (Hd1 & Hd2 & Hcross).
  apply StronglySorted_inv in Hd2. destruct Hd2 as [Hd2 Hdm].
  assert (Hbound : forall x, In x ds1 -> (x <= S dm)%nat).
  { destruct l1 as [|r1 l1'].
    { destruct ds1; [intros x []|discriminate]. }
    destruct ds1 as [|d1 ds1']; [discriminate|].
    assert (Hd1m : (d1 <= S dm)%nat).
    { destruct l1' as [|r2 l1''].
      - destruct ds1'; [|discriminate].
        destruct fuel as [|fuel']; [simpl in Hq'; lia|].
        cbn [app queueDepths] in Hds. injection Hds as Hd1' Hdm' _.
        lia.
      - destruct fuel as [|fuel']; [simpl in Hq'; lia|].
        destruct (first_depth_bound fuel' r1 r2 l1'' (mergeNodes t1 t2) l2)
          as (e & da & dy & db & He & Hda & Hle').
        + intros arr' Hlen' Hex''. apply IH; auto.
        + exact Hex'.
        + exact Hq'.
        + rewrite Hfreq. subst rest.
          apply StronglySorted_inv in Hs. destruct Hs as [Hs Ht1].
          apply StronglySorted_inv in Hs. destruct Hs as [_ Ht2].
          inversion Ht1 as [|? ? _ Ht1']; subst.
          inversion Ht1' as [|? ? Hr1 _]; subst.
          inversion Ht2 as [|? ? _ Ht2']; subst.
          inversion Ht2' as [|? ? Hr2 _]; subst.
          lia.
        + cbn [app] in Hds. rewrite He in Hds.
          destruct (app_inj_length _ (e :: e :: da) (d1 :: ds1')
                                   (dy :: db) (dm :: ds2)) as [Hds1 Hds2].
          * simpl in *. lia.
          * exact Hds.
          * injection Hds1 as -> _. injection Hds2 as -> _. exact Hle'. }
    apply StronglySorted_inv in Hd1. destruct Hd1 as [_ Hall].
    rewrite Forall_forall in Hall.
    intros x [<-|Hx]; auto. specialize (Hall x Hx). simpl in Hall. lia. }
  assert (Hall : Forall (fun x => (x <= S dm)%nat) (ds1 ++ ds2)).
  { apply Forall_app. split.
    - apply Forall_forall. exact Hbound.
    - eapply Forall_impl; [|exact Hdm]. simpl. intros; lia. }
  constructor; [constructor|].
  - apply sorted_app_iff. repeat split; auto.
    intros x y Hx Hy. apply Hcross; auto. right. exact Hy.
  - exact Hall.
  - constructor; auto.
Qed.

Lemma occursAt_trans root m t d k :
  occursAt root m d -> occursAt m t k -> occursAt root t (d + k).
Proof.
  induction 1 as [m|root l m d Hl _ IH|root r m d Hr _ IH]; intros Ht; simpl; auto.
  - eapply occurs_left; eauto.
  - eapply occurs_right; eauto.
Qed.

Lemma occursAt_children root l r d :
  occursAt root (mergeNodes l r) d ->
  occursAt root l (S d) /\ occursAt root r (S d).
Proof.
  intros H. rewrite <- (Nat.add_1_r d). split.
  - apply (occursAt_trans root (mergeNodes l r)); auto.
    eapply occurs_left; [reflexivity|constructor].
  - apply (occursAt_trans root (mergeNodes l r)); auto.
    eapply occurs_right; [reflexivity|constructor].
Qed.

Lemma Forall2_middle (A B : Type) (R : A -> B -> Prop) l1 x l2 :
  forall d1 y d2,
    length l1 = length d1 ->
    Forall2 R (l1 ++ x :: l2) (d1 ++ y :: d2) ->
    Forall2 R l1 d1 /\ R x y /\ Forall2 R l2 d2.
Proof.
  induction l1 as [|a l1 IH]; intros [|d d1] y d2 Hlen H;
    simpl in *; try discriminate.
  - inversion H; subst. auto.
  - inversion H; subst. injection Hlen as Hlen.
    destruct (IH d1 y d2 Hlen) as (H1 & Hxy & H2); auto.
Qed.

(** [queueDepths] is right: each queued node lies in the final tree at the
    depth computed for it. *)
Lemma queueDepths_occurs fuel :
  forall arr root,
    (1 <= length arr <= S fuel)%nat ->
    ascending arr ->
    mergeArray fuel arr = [root] ->
    Forall2 (occursAt root) arr (queueDepths fuel arr).
Proof.
  induction fuel as [|fuel IH]; intros arr root Hlen Hs Hroot.
  - destruct arr as [|x [|y arr]]; simpl in Hlen; try lia.
    simpl in Hroot. injection Hroot as ->. repeat constructor.
  - destruct arr as [|t1 [|t2 rest]]; simpl in Hlen; try lia.
    + simpl in Hroot. injection Hroot as ->. repeat constructor.
    + assert (Hsr : ascending rest).
      { apply (ascending_app [t1; t2]) in Hs. tauto. }
      destruct (queueDepths_step fuel t1 t2 rest Hsr)
        as (l1 & l2 & ds1 & dm & ds2 & Hrest & Hins & Hle & Hgt & Hds & Hl1 & Hl2 & Hres).
      cbn [mergeArray] in Hroot.
      assert (H2 : Forall2 (occursAt root) (l1 ++ mergeNodes t1 t2 :: l2)
                           (ds1 ++ dm :: ds2)).
      { rewrite <- Hds, <- Hins. apply IH; auto.
        - rewrite insertArray_length. lia.
        - apply insertArray_ascending, Hsr. }
      apply Forall2_middle in H2; auto.
      destruct H2 as (H1 & Hm & H2).
      destruct (occursAt_children root t1 t2 dm Hm) as [Hl Hr].
      rewrite Hres, Hrest. repeat constructor; auto.
      apply Forall2_app; auto.
Qed.

(** A leaf path of a subtree extends to a leaf path of the tree. *)
Lemma occursAt_leafPaths root t d :
  occursAt root t d ->
  forall s p, In (s, p) (leafPaths t) ->
  exists p', In (s, p') (leafPaths root) /\ length p' = (d + length p)%nat.
Proof.
  induction 1 as [t|root l t d Hl _ IH|root r t d Hr _ IH]; intros s p Hin.
  - exists p. auto.
  - destruct (IH s p Hin) as (p' & Hp' & Hlen).
    exists ("0"%char :: p'). split; [|simpl; lia].
    destruct root as [d0 f0 l0 r0]. simpl in Hl. subst l0.
    cbn [leafPaths isNull andb]. apply in_or_app. left.
    apply in_map_iff. exists (s, p'). auto.
  - destruct (IH s p Hin) as (p' & Hp' & Hlen).
    exists ("1"%char :: p'). split; [|simpl; lia].
    destruct root as [d0 f0 l0 r0]. simpl in Hr. subst r0.
    replace (leafPaths (mkNode d0 f0 l0 (Some r)))
      with (match l0 with
            | Some l' => map (fun sp => (fst sp, "0"%char :: snd sp)) (leafPaths l')
            | None => []
            end ++ map (fun sp => (fst sp, "1"%char :: snd sp)) (leafPaths r))
      by (destruct l0; reflexivity).
    apply in_or_app. right. apply in_map_iff. exists (s, p'). auto.
Qed.

Lemma Forall2_In_left (A B : Type) (R : A -> B -> Prop) l l' x :
  Forall2 R l l' -> In x l -> exists y, In y l' /\ R x y.
Proof.
  induction 1 as [|a b l l' Hab _ IH]; intros Hin.
  - destruct Hin.
  - destruct Hin as [<-|Hin].
    + exists b. split; [left; reflexivity|exact Hab].
    + destruct (IH Hin) as (y & Hy & Hxy). exists y. split; [right|]; auto.
Qed.

(** In a sorted queue a strictly lighter node is met first, so it ends at
    least as deep. *)
Lemma lighter_is_deeper (R : HuffmanNode -> nat -> Prop) arr ds :
  Forall2 R arr ds -> ascending arr -> nonincreasing ds ->
  forall x y, In x arr -> In y arr -> (freq x < freq y)%Z ->
  exists dx dy, R x dx /\ R y dy /\ (dy <= dx)%nat.
Proof.
  induction 1 as [|a d arr ds Had Hrest IH]; intros Hs Hn x y Hx Hy Hlt.
  - destruct Hx.
  - apply StronglySorted_inv in Hs. destruct Hs as [Hs Ha].
    apply StronglySorted_inv in Hn. destruct Hn as [Hn Hd].
    rewrite Forall_forall in Ha, Hd.
    destruct Hx as [<-|Hx], Hy as [<-|Hy].
    + lia.
    + destruct (Forall2_In_left _ _ _ _ _ _ Hrest Hy) as (dy & Hdy & Hy').
      exists d, dy. split; [exact Had|]. split; [exact Hy'|]. apply Hd, Hdy.
    + specialize (Ha x Hx). simpl in Ha. lia.
    + apply IH; auto.
Qed.

Lemma NoDup_fst_unique (L : list (ascii * list ascii)) c p p' :
  NoDup (map fst L) -> In (c, p) L -> In (c, p') L -> p = p'.
Proof.
  induction L as [|[s q] L IH]; simpl; intros Hnd H1 H2; [destruct H1|].
  inversion Hnd as [|? ? Hnotin Hnd']; subst.
  destruct H1 as [H1|H1], H2 as [H2|H2].
  - congruence.
  - injection H1 as -> ->. exfalso. apply Hnotin.
    apply in_map_iff. exists (c, p'). auto.
  - injection H2 as -> ->. exfalso. apply Hnotin.
    apply in_map_iff. exists (c, p). auto.
  - auto.
Qed.

Lemma totalFreq_leavesOf data :
  forall freq,
    length data = length freq ->
    totalFreq (leavesOf data freq) = sumFreq freq.
Proof.
  induction data as [|d data IH]; intros [|f freq] Hlen;
    try discriminate; [reflexivity|].
  simpl in *. rewrite <- (IH freq) by lia. reflexivity.
Qed.

Lemma leavesOf_nonneg data fs :
  Forall (fun f => (0 <= f)%Z) fs ->
  Forall (fun t => (0 <= freq t)%Z) (leavesOf data fs).
Proof.
  intros Hpos. unfold leavesOf. apply Forall_forall. intros t Ht.
  apply in_map_iff in Ht. destruct Ht as ([d f] & <- & Hin).
  apply in_combine_r in Hin. rewrite Forall_forall in Hpos.
  simpl. auto.
Qed.

Lemma seededArray_exact data freq :
  length data = length freq ->
  Forall (fun f => (0 <= f)%Z) freq ->
  (sumFreq freq < UINT_MODULUS)%Z ->
  exactQueue (seededArray data freq).
Proof.
  intros Hlen Hpos Hsum. split; [|split].
  - apply seededArray_ascending.
  - eapply Permutation_Forall.
    + symmetry. apply seededArray_perm.
    + apply leavesOf_nonneg, Hpos.
  - rewrite (totalFreq_perm _ _ (seededArray_perm data freq)).
    rewrite totalFreq_leavesOf; auto.
Qed.

End Depths.

(** * The 256-byte buffers *)

Section Buffers.

Lemma leafPaths_nonempty t : full t -> (1 <= length (leafPaths t))%nat.
Proof.
  induction 1 as [d f|d f l r Hl IHl Hr IHr].
  - simpl. lia.
  - cbn [leafPaths isNull andb]. rewrite length_app, !length_map. lia.
Qed.

(** A tree whose inner nodes have two children and which has at most
    [256 - top] leaves keeps every write of storeCodes inside the buffers. *)
Lemma storeCodesInBounds_leaves t :
  full t ->
  forall top,
    (top + length (leafPaths t) <= 256)%nat ->
    storeCodesInBounds t top = true.
Proof.
  induction 1 as [d f|d f l r Hl IHl Hr IHr]; intros top Htop.
  - cbn [storeCodesInBounds isNull andb leafPaths length] in *.
    assert (Hlt : (top <? 256)%nat = true) by (apply Nat.ltb_lt; lia).
    rewrite Hlt. destruct (isalpha d); reflexivity.
  - cbn [storeCodesInBounds isNull andb leafPaths] in *.
    rewrite length_app, !length_map in Htop.
    pose proof (leafPaths_nonempty l Hl). pose proof (leafPaths_nonempty r Hr).
    assert (Hlt : (top <? 256)%nat = true) by (apply Nat.ltb_lt; lia).
    rewrite Hlt, IHl, IHr by lia. reflexivity.
Qed.

(** For a table of at most 256 entries generateHuffmanCodes stays inside
    [char code[256]] and the rows of [codes]. *)
Lemma built_tree_in_bounds data fs sz root :
  tableOfSize data fs sz ->
  (1 <= sz <= 256)%Z ->
  buildHuffmanTree data fs sz = Ok (Some root) ->
  generateHuffmanCodesInBounds root = true.
Proof.
  intros Htab Hsz Hb.
  destruct (buildHuffmanTree_root data fs sz Htab ltac:(lia))
    as (root' & Hb' & Hfull & Hperm & _).
  rewrite Hb in Hb'. injection Hb' as <-.
  apply storeCodesInBounds_leaves; auto.
  apply Permutation_length in Hperm. unfold leafSymbols in Hperm.
  rewrite length_map in Hperm. destruct Htab. lia.
Qed.

End Buffers.

(** * The properties of the specification *)

Local Open Scope char_scope.

(** One turn of the merge loop: the first node extracted becomes the left
    child, the second the right child, the weight is their wrapped sum and
    the new node goes back into the queue. *)
Lemma mergeLoop_step fuel cap l r rest :
  (Z.of_nat (length rest) + 2 <= cap)%Z ->
  let top := mkNode "$" (uadd (freq l) (freq r)) (Some l) (Some r) in
  mergeLoop (S fuel) (mkQueue cap (l :: r :: rest)) =
  mergeLoop fuel (mkQueue cap (insertArray rest top)) /\
  In top (insertArray rest top).
Proof.
  intros Hcap top. split.
  - rewrite !mergeLoop_array.
    + reflexivity.
    + unfold size. cbn [array capacity]. rewrite insertArray_length. lia.
    + unfold size. cbn [array capacity length]. lia.
  - apply (Permutation_in top (Permutation_sym (insertArray_perm rest top))).
    left. reflexivity.
Qed.

(** Every letter of the table is stored with the path of one of its leaves. *)
Lemma letters_coded root data codes text :
  Permutation (leafSymbols root) data ->
  Forall (fun c => In c data /\ isalpha c = true) text ->
  Forall (fun c => In (c, generateHuffmanCodes root codes c) (leafPaths root)) text.
Proof.
  intros Hperm Htext. eapply Forall_impl; [|exact Htext].
  intros c [Hin Ha]. cbv beta.
  destruct (generateHuffmanCodes_letter root codes c) as (p & Hp & ->); auto.
  apply (Permutation_in c (Permutation_sym Hperm) Hin).
Qed.

(** C1, as stated, fails: the table {'1': 1, 'a': 2} has two symbols of
    positive frequency and the text "1" is made of its symbols only, yet
    encoding it and decoding the stream gives "$", not "1". *)
Lemma round_trip_fails_on_digit :
  exists root,
    buildHuffmanTree ["1"; "a"]%char [1; 2]%Z 2 = Ok (Some root) /\
    transcode root (generateHuffmanCodes root emptyCodes) ["1"%char] = Ok ["$"%char] /\
    transcode root (generateHuffmanCodes root emptyCodes) ["1"%char] <> Ok ["1"%char].
Proof.
  eexists. split; [reflexivity|]. split; [reflexivity|].
  vm_compute. discriminate.
Qed.

(** C1, amended: for a table of at least two and at most 256 entries and
    every text made of letters of the table, generateHuffmanCodes stays
    inside its buffers and decodeData (root, encodeData (text, codes)) is
    the text, where codes were generated from the same root (whatever the
    table held before). *)
Theorem round_trip_letters data freq sz codes text :
  tableOfSize data freq sz ->
  (2 <= sz <= 256)%Z ->
  Forall (fun c => In c data /\ isalpha c = true) text ->
  exists root,
    buildHuffmanTree data freq sz = Ok (Some root) /\
    generateHuffmanCodesInBounds root = true /\
    transcode root (generateHuffmanCodes root codes) text = Ok text.
Proof.
  intros Htab Hsz Htext.
  destruct (buildHuffmanTree_root data freq sz Htab ltac:(lia))
    as (root & Hbuild & Hfull & Hperm & Hinner).
  exists root. split; auto.
  split; [apply (built_tree_in_bounds data freq sz); auto; lia|].
  unfold transcode. rewrite encodeData_stream. cbn [bind]. unfold decodeData.
  rewrite <- (app_nil_r (encodedStream _ text)).
  rewrite decodeLoop_stream.
  - cbn [decodeLoop bind]. rewrite app_nil_r. reflexivity.
  - apply Hinner. lia.
  - eapply letters_coded; eauto.
Qed.

Lemma round_trip_letters_witness :
  tableOfSize ["a"; "b"; "c"]%char [5; 9; 12]%Z 3 /\
  (2 <= 3 <= 256)%Z /\
  Forall (fun c => In c ["a"; "b"; "c"]%char /\ isalpha c = true) ["c"; "a"; "b"; "c"]%char /\
  exists root,
    buildHuffmanTree ["a"; "b"; "c"]%char [5; 9; 12]%Z 3 = Ok (Some root) /\
    generateHuffmanCodesInBounds root = true /\
    transcode root (generateHuffmanCodes root emptyCodes) ["c"; "a"; "b"; "c"]%char =
    Ok ["c"; "a"; "b"; "c"]%char.
Proof.
  assert (Htab : tableOfSize ["a"; "b"; "c"]%char [5; 9; 12]%Z 3)
    by (split; reflexivity).
  assert (Hsz : (2 <= 3 <= 256)%Z) by lia.
  assert (Htext : Forall (fun c => In c ["a"; "b"; "c"]%char /\ isalpha c = true)
                         ["c"; "a"; "b"; "c"]%char)
    by (repeat constructor; simpl; auto).
  split; [exact Htab|]. split; [exact Hsz|]. split; [exact Htext|].
  exact (round_trip_letters _ _ _ emptyCodes _ Htab Hsz Htext).
Defined.




(** C3, as stated, fails: with the codes of the table {'a': 1, 'b': 2} the
    text "a?b" holds '?', which has no entry, and encodeData returns a
    stream all the same, with nothing but the delimiter for '?'. *)
Lemma encodeData_unknown_symbol_passes :
  exists root,
    buildHuffmanTree ["a"; "b"]%char [1; 2]%Z 2 = Ok (Some root) /\
    hasCode (generateHuffmanCodes root emptyCodes) "?" = false /\
    encodeData ["a"; "?"; "b"]%char (generateHuffmanCodes root emptyCodes) =
    Ok ["0"; " "; " "; "1"; " "]%char /\
    ~ exists e, encodeData ["a"; "?"; "b"]%char (generateHuffmanCodes root emptyCodes) = Err e.
Proof.
  eexists. split; [reflexivity|]. split; [reflexivity|]. split; [reflexivity|].
  intros [e He]. vm_compute in He. discriminate.
Qed.

(** C3, amended: encodeData raises no error for a character that has no
    entry; it returns the codes of the characters before it, a lone
    delimiter for that character, and the codes of the characters after it. *)
Theorem encodeData_unknown_symbol before c after codes :
  hasCode codes c = false ->
  encodeData (before ++ c :: after) codes =
  Ok (encodedStream codes before ++ " "%char :: encodedStream codes after).
Proof.
  intros Hc. rewrite encodeData_stream. f_equal.
  unfold encodedStream. rewrite flat_map_app. cbn [flat_map].
  unfold hasCode in Hc. destruct (codes c); [reflexivity|discriminate].
Qed.

Lemma encodeData_unknown_symbol_witness :
  hasCode emptyCodes "?" = false /\
  encodeData (["?"] ++ "?" :: ["?"])%char emptyCodes =
  Ok (encodedStream emptyCodes ["?"%char] ++
      " "%char :: encodedStream emptyCodes ["?"%char]).
Proof.
  split; [reflexivity|].
  exact (encodeData_unknown_symbol ["?"%char] "?"%char ["?"%char] emptyCodes eq_refl).
Defined.

(** C4, as stated, fails: for the table {'a': 5} the root is the single
    leaf, but the code of 'a' is the empty string and the text "aa" comes
    back as "a". *)
Lemma single_symbol_code_is_empty :
  buildHuffmanTree ["a"%char] [5%Z] 1 = Ok (Some (createHuffmanNode "a" 5)) /\
  generateHuffmanCodes (createHuffmanNode "a" 5) emptyCodes "a" = [] /\
  transcode (createHuffmanNode "a" 5)
            (generateHuffmanCodes (createHuffmanNode "a" 5) emptyCodes)
            ["a"; "a"]%char = Ok ["a"%char].
Proof. repeat split. Qed.

(** C4, amended: for a table of exactly one entry buildHuffmanTree returns
    that single leaf as the root; the generated table holds the empty string
    for the symbol; a text of n copies of the symbol is encoded as n
    delimiters and decoded as (n+1)/2 copies. *)
Theorem single_symbol_table d f n :
  buildHuffmanTree [d] [f] 1 = Ok (Some (createHuffmanNode d f)) /\
  generateHuffmanCodes (createHuffmanNode d f) emptyCodes d = [] /\
  encodeData (repeat d n) (generateHuffmanCodes (createHuffmanNode d f) emptyCodes) =
  Ok (repeat " "%char n) /\
  transcode (createHuffmanNode d f)
            (generateHuffmanCodes (createHuffmanNode d f) emptyCodes)
            (repeat d n) = Ok (repeat d (Nat.div2 (S n))).
Proof.
  assert (Hcode : generateHuffmanCodes (createHuffmanNode d f) emptyCodes d = []).
  { unfold generateHuffmanCodes, createHuffmanNode. cbn [storeCodes isNull andb].
    destruct (isalpha d); [|reflexivity].
    unfold setCode. rewrite Ascii.eqb_refl. reflexivity. }
  assert (Henc : encodeData (repeat d n)
                   (generateHuffmanCodes (createHuffmanNode d f) emptyCodes) =
                 Ok (repeat " "%char n)).
  { rewrite encodeData_stream. f_equal. unfold encodedStream.
    induction n as [|n IH]; simpl; [reflexivity|].
    rewrite Hcode, IH. reflexivity. }
  split; [reflexivity|]. split; [exact Hcode|]. split; [exact Henc|].
  unfold transcode. rewrite Henc. cbn [bind]. apply decodeLoop_delimiters.
Qed.

(** C5, as stated, fails: from an empty table buildHuffmanTree returns the
    null root, with no error. *)
Lemma buildHuffmanTree_empty_is_null :
  buildHuffmanTree [] [] 0 = Ok NULL /\
  ~ exists e, buildHuffmanTree [] [] 0 = Err e.
Proof.
  split; [reflexivity|]. intros [e He]. discriminate.
Qed.

(** C5, amended: buildHuffmanTree signals an empty table by returning the
    null pointer, and only then: on a table of [size] entries it returns
    NULL when [size] is 0 and a node otherwise. *)
Theorem buildHuffmanTree_null_iff_empty data freq sz :
  tableOfSize data freq sz ->
  (sz = 0%Z -> buildHuffmanTree data freq sz = Ok NULL) /\
  (sz <> 0%Z -> exists root, buildHuffmanTree data freq sz = Ok (Some root)).
Proof.
  intros Htab. split.
  - intros ->. apply buildHuffmanTree_none. lia.
  - intros Hne.
    assert (Hpos : (1 <= sz)%Z) by (destruct Htab; lia).
    destruct (buildHuffmanTree_root data freq sz Htab Hpos) as (root & Hb & _).
    exists root. exact Hb.
Qed.

Lemma buildHuffmanTree_null_iff_empty_witness :
  tableOfSize ["a"; "b"]%char [1; 2]%Z 2 /\
  ((2 = 0)%Z -> buildHuffmanTree ["a"; "b"]%char [1; 2]%Z 2 = Ok NULL) /\
  ((2 <> 0)%Z -> exists root, buildHuffmanTree ["a"; "b"]%char [1; 2]%Z 2 = Ok (Some root)).
Proof.
  assert (Htab : tableOfSize ["a"; "b"]%char [1; 2]%Z 2) by (split; reflexivity).
  split; [exact Htab|].
  exact (buildHuffmanTree_null_iff_empty _ _ _ Htab).
Defined.

(** C6, as stated, fails: on the tree of {'a': 1, 'b': 2, 'c': 3} (codes
    c = 0, a = 10, b = 11) the stream "0 1" ends inside the tree, and
    decodeData returns the partial text "c" without any error. *)
Lemma decodeData_truncated_is_silent :
  exists root,
    buildHuffmanTree ["a"; "b"; "c"] [1; 2; 3]%Z 3 = Ok (Some root) /\
    decodeData root ["0"; " "; "1"] = Ok ["c"] /\
    ~ exists e, decodeData root ["0"; " "; "1"] = Err e.
Proof.
  eexists. split; [reflexivity|]. split; [reflexivity|].
  intros [e He]. vm_compute in He. discriminate.
Qed.

(** C6, amended: on the tree of a table of at least two entries decodeData
    signals nothing: it returns for every stream, never following an absent
    child, and a stream that ends inside the code of a letter is decoded as
    if the unfinished bits were not there. *)
Theorem decodeData_truncated_stream data freq sz :
  tableOfSize data freq sz ->
  (2 <= sz)%Z ->
  exists root,
    buildHuffmanTree data freq sz = Ok (Some root) /\
    (forall stream, exists out, decodeData root stream = Ok out) /\
    (forall text bits,
        Forall (fun c => In c data /\ isalpha c = true) text ->
        cutCode data (generateHuffmanCodes root emptyCodes) bits ->
        decodeData root
          (encodedStream (generateHuffmanCodes root emptyCodes) text ++ bits) =
        Ok text).
Proof.
  intros Htab Hsz.
  destruct (buildHuffmanTree_root data freq sz Htab ltac:(lia))
    as (root & Hbuild & Hfull & Hperm & Hinner).
  specialize (Hinner Hsz).
  exists root. split; auto. split.
  - intros stream. unfold decodeData.
    apply (decodeLoop_returns root Hfull Hinner (length stream)); auto.
  - intros text bits Htext (c & q & Hc & Ha & Hq & Hcode).
    unfold decodeData. rewrite decodeLoop_stream; auto.
    + assert (Hin : Forall (fun c => In (c, generateHuffmanCodes root emptyCodes c)
                                       (leafPaths root)) [c]).
      { eapply letters_coded; eauto. }
      inversion Hin as [|? ? Hin' _]; subst. rewrite Hcode in Hin'.
      rewrite (decodeLoop_cut root bits root c q Hq Hin').
      cbn [bind]. rewrite app_nil_r. reflexivity.
    + eapply letters_coded; eauto.
Qed.

Lemma decodeData_truncated_stream_witness :
  tableOfSize ["a"; "b"; "c"] [1; 2; 3]%Z 3 /\
  (2 <= 3)%Z /\
  exists root,
    buildHuffmanTree ["a"; "b"; "c"] [1; 2; 3]%Z 3 = Ok (Some root) /\
    (forall stream, exists out, decodeData root stream = Ok out) /\
    (forall text bits,
        Forall (fun c => In c ["a"; "b"; "c"] /\ isalpha c = true) text ->
        cutCode ["a"; "b"; "c"] (generateHuffmanCodes root emptyCodes) bits ->
        decodeData root
          (encodedStream (generateHuffmanCodes root emptyCodes) text ++ bits) =
        Ok text).
Proof.
  assert (Htab : tableOfSize ["a"; "b"; "c"] [1; 2; 3]%Z 3) by (split; reflexivity).
  assert (Hsz : (2 <= 3)%Z) by lia.
  repeat split; auto.
  exact (decodeData_truncated_stream _ _ _ Htab Hsz).
Defined.

(** On a tree that is a single leaf a bit does make decodeData follow an
    absent child. *)
Lemma decodeData_single_leaf_bit d f :
  decodeData (createHuffmanNode d f) ["0"] = Err NullDereference.
Proof. reflexivity. Qed.

(** C7, as stated, fails: a sorted queue that is full ignores the insertion,
    so the new node, of the weight of a queued one, is not placed at all. *)
Lemma insert_into_full_queue_drops :
  ascending (array (mkQueue 1 [createHuffmanNode "a" 5])) /\
  freq (createHuffmanNode "b" 5) = freq (createHuffmanNode "a" 5) /\
  ~ In (createHuffmanNode "b" 5)
       (array (insertSortedArrayPriorityQueue
                 (mkQueue 1 [createHuffmanNode "a" 5])
                 (createHuffmanNode "b" 5))).
Proof.
  split; [|split].
  - repeat constructor.
  - reflexivity.
  - simpl. intros [H|[]]. discriminate.
Qed.

(** C7, amended: on a queue whose array is sorted by ascending weight and
    which is not full, insertion places the new node after every queued
    node of equal (or lower) weight and before the heavier ones, and the
    array stays sorted; on a full queue insertion changes nothing. *)
Theorem insert_is_stable queue node :
  ascending (array queue) ->
  (size queue = capacity queue ->
   insertSortedArrayPriorityQueue queue node = queue) /\
  (size queue <> capacity queue ->
   exists before after,
     array queue = before ++ after /\
     array (insertSortedArrayPriorityQueue queue node) = before ++ node :: after /\
     Forall (fun x => (freq x <= freq node)%Z) before /\
     Forall (fun x => (freq node < freq x)%Z) after /\
     ascending (array (insertSortedArrayPriorityQueue queue node))).
Proof.
  intros Hs. split.
  - apply insert_full.
  - intros Hne. rewrite insert_not_full by auto. cbn [array].
    destruct (insertArray_sorted (array queue) node Hs)
      as (l1 & l2 & Harr & Hres & Hle & Hgt).
    exists l1, l2. repeat split; auto.
    apply insertArray_ascending, Hs.
Qed.

Lemma insert_is_stable_witness :
  ascending [createHuffmanNode "a" 3; createHuffmanNode "b" 5; createHuffmanNode "c" 7] /\
  exists before after,
    [createHuffmanNode "a" 3; createHuffmanNode "b" 5; createHuffmanNode "c" 7] =
    before ++ after /\
    array (insertSortedArrayPriorityQueue
             (mkQueue 4 [createHuffmanNode "a" 3; createHuffmanNode "b" 5;
                         createHuffmanNode "c" 7])
             (createHuffmanNode "d" 5)) =
    before ++ createHuffmanNode "d" 5 :: after /\
    Forall (fun x => (freq x <= 5)%Z) before /\
    Forall (fun x => (5 < freq x)%Z) after /\
    ascending (array (insertSortedArrayPriorityQueue
             (mkQueue 4 [createHuffmanNode "a" 3; createHuffmanNode "b" 5;
                         createHuffmanNode "c" 7])
             (createHuffmanNode "d" 5))).
Proof.
  assert (Hs : ascending [createHuffmanNode "a" 3; createHuffmanNode "b" 5;
                          createHuffmanNode "c" 7]).
  { repeat constructor; simpl; lia. }
  split; [exact Hs|].
  refine (proj2 (insert_is_stable
                   (mkQueue 4 [createHuffmanNode "a" 3; createHuffmanNode "b" 5;
                               createHuffmanNode "c" 7])
                   (createHuffmanNode "d" 5) Hs) _).
  unfold size. simpl. lia.
Defined.

(** C8: the merge step of buildHuffmanTree at the table
    {'a': 2147483648, 'b': 2147483648}.  The first node extracted is the
    left child and the second the right child, and the node is the root, but
    its weight is 0: the [unsigned] sum of the children's weights has
    wrapped, where the claim has 4294967296. *)
Theorem merge_weight_wraps :
  buildHuffmanTree ["a"; "b"] [2147483648; 2147483648]%Z 2 =
  Ok (Some (mkNode "$" 0
                   (Some (createHuffmanNode "a" 2147483648))
                   (Some (createHuffmanNode "b" 2147483648)))) /\
  (freq (createHuffmanNode "a" 2147483648) + freq (createHuffmanNode "b" 2147483648)
   = 4294967296)%Z.
Proof. split; reflexivity. Qed.

(** C10, as stated, fails: in the tree of {'1': 1, 'a': 2} the character '1'
    labels a leaf and receives no entry. *)
Lemma digit_leaf_has_no_entry :
  exists root,
    buildHuffmanTree ["1"; "a"] [1; 2]%Z 2 = Ok (Some root) /\
    In "1" (leafSymbols root) /\
    hasCode (generateHuffmanCodes root emptyCodes) "1" = false.
Proof.
  eexists. split; [reflexivity|]. split; [|reflexivity].
  simpl. auto.
Qed.

(** C10, amended: the generator records an entry for exactly the leaves
    whose character is a letter: for the tree built from a table of at
    least two and at most 256 entries it stays inside its buffers, the leaf
    symbols are those of the table, a character has an entry if and only if
    it is a letter that labels a leaf, and the sentinel '$' never has
    one. *)
Theorem entries_are_letter_leaves data freq sz :
  tableOfSize data freq sz ->
  (2 <= sz <= 256)%Z ->
  exists root,
    buildHuffmanTree data freq sz = Ok (Some root) /\
    generateHuffmanCodesInBounds root = true /\
    Permutation (leafSymbols root) data /\
    (forall c,
        hasCode (generateHuffmanCodes root emptyCodes) c = true <->
        In c (leafSymbols root) /\ isalpha c = true) /\
    hasCode (generateHuffmanCodes root emptyCodes) "$" = false.
Proof.
  intros Htab Hsz.
  destruct (buildHuffmanTree_root data freq sz Htab ltac:(lia))
    as (root & Hbuild & Hfull & Hperm & Hinner).
  specialize (Hinner ltac:(lia)).
  exists root. split; auto.
  split; [apply (built_tree_in_bounds data freq sz); auto; lia|].
  split; auto. split.
  - intros c. unfold hasCode. split.
    + intros Hc.
      destruct (generateHuffmanCodes_cases root emptyCodes c)
        as [[Heq _]|(p & Hp & Ha & _)].
      * rewrite Heq in Hc. discriminate.
      * split; auto. apply In_leafSymbols. eauto.
    + intros [Hin Ha].
      destruct (generateHuffmanCodes_letter root emptyCodes c Hin Ha)
        as (p & Hp & ->).
      pose proof (leafPaths_inner_nonempty root c p Hinner Hp).
      destruct p; [contradiction|reflexivity].
  - unfold hasCode. rewrite generateHuffmanCodes_other; auto.
Qed.

Lemma entries_are_letter_leaves_witness :
  tableOfSize ["1"; "a"; "$"] [1; 2; 3]%Z 3 /\
  (2 <= 3 <= 256)%Z /\
  exists root,
    buildHuffmanTree ["1"; "a"; "$"] [1; 2; 3]%Z 3 = Ok (Some root) /\
    generateHuffmanCodesInBounds root = true /\
    Permutation (leafSymbols root) ["1"; "a"; "$"] /\
    (forall c,
        hasCode (generateHuffmanCodes root emptyCodes) c = true <->
        In c (leafSymbols root) /\ isalpha c = true) /\
    hasCode (generateHuffmanCodes root emptyCodes) "$" = false.
Proof.
  assert (Htab : tableOfSize ["1"; "a"; "$"] [1; 2; 3]%Z 3) by (split; reflexivity).
  assert (Hsz : (2 <= 3 <= 256)%Z) by lia.
  split; [exact Htab|]. split; [exact Hsz|].
  exact (entries_are_letter_leaves _ _ _ Htab Hsz).
Defined.

(** C9, as stated, fails: in the table {'1': 1, 'a': 2, 'b': 3} the symbol
    '1' has a strictly lower frequency than 'b', yet its row of the table,
    which storeCodes never writes, is shorter than the code "0" of 'b'. *)
Lemma code_length_not_monotone :
  exists root,
    buildHuffmanTree ["1"; "a"; "b"] [1; 2; 3]%Z 3 = Ok (Some root) /\
    ~ lengthMonotone ["1"; "a"; "b"] [1; 2; 3]%Z
        (generateHuffmanCodes root emptyCodes).
Proof.
  eexists. split; [reflexivity|].
  intros H. specialize (H "1" 1%Z "b" 3%Z).
  simpl in H. assert (Hle : (1 <= 0)%nat); [|lia].
  apply H; auto. lia.
Qed.

(** The same happens when a symbol is listed twice, its row holding the code
    of the leaf visited last ... *)
Lemma code_length_not_monotone_repeated_symbol :
  exists root,
    buildHuffmanTree ["a"; "a"; "b"] [1; 100; 50]%Z 3 = Ok (Some root) /\
    ~ lengthMonotone ["a"; "a"; "b"] [1; 100; 50]%Z
        (generateHuffmanCodes root emptyCodes).
Proof.
  eexists. split; [reflexivity|].
  intros H. specialize (H "a" 1%Z "b" 50%Z).
  simpl in H. assert (Hle : (2 <= 1)%nat); [|lia].
  apply H; auto. lia.
Qed.

(** ... and when the [unsigned] sum of two weights wraps: 'a' is lighter
    than 'c' and gets the shorter code. *)
Lemma code_length_not_monotone_overflow :
  exists root,
    buildHuffmanTree ["a"; "b"; "c"; "d"; "e"]
      [2147483647; 2147483647; 2147483648; 2147483648; 2147483648]%Z 5 =
    Ok (Some root) /\
    generateHuffmanCodes root emptyCodes "a" = ["1"; "0"] /\
    generateHuffmanCodes root emptyCodes "c" = ["0"; "0"; "0"].
Proof.
  eexists. split; [reflexivity|]. split; reflexivity.
Qed.

(** C9, amended: for every frequency table of at least two pairwise distinct
    symbols whose frequencies are non-negative and sum to less than 2^32,
    and for every pair of letters of the table where one has a strictly
    lower frequency than the other, the code of the lower-frequency letter
    is no shorter than the code of the other. *)
Theorem code_length_monotone data freq sz :
  tableOfSize data freq sz ->
  (2 <= sz)%Z ->
  NoDup data ->
  Forall (fun f => (0 <= f)%Z) freq ->
  (sumFreq freq < UINT_MODULUS)%Z ->
  exists root,
    buildHuffmanTree data freq sz = Ok (Some root) /\
    forall c1 f1 c2 f2,
      isalpha c1 = true -> isalpha c2 = true ->
      In (c1, f1) (combine data freq) ->
      In (c2, f2) (combine data freq) ->
      (f1 < f2)%Z ->
      (length (generateHuffmanCodes root emptyCodes c2) <=
       length (generateHuffmanCodes root emptyCodes c1))%nat.
Proof.
  intros Htab Hsz Hnd Hpos Hsum.
  destruct (buildHuffmanTree_root data freq sz Htab ltac:(lia))
    as (root & Hbuild & _ & Hperm & _).
  exists root. split; auto.
  assert (Hlen : length data = length freq) by (destruct Htab; lia).
  assert (Hroot : mergeArray (length data) (seededArray data freq) = [root]).
  { destruct (mergeArray_root (length data) (seededArray data freq))
      as (root' & Hroot' & _).
    { rewrite seededArray_length by auto. destruct Htab. lia. }
    rewrite buildHuffmanTree_array in Hbuild by auto.
    rewrite Hroot' in Hbuild. simpl in Hbuild. congruence. }
  pose proof (seededArray_exact data freq Hlen Hpos Hsum) as Hex.
  assert (Hocc : Forall2 (occursAt root) (seededArray data freq)
                 (queueDepths (length data) (seededArray data freq))).
  { apply queueDepths_occurs; auto.
    - rewrite seededArray_length by auto. destruct Htab. lia.
    - apply seededArray_ascending. }
  assert (Hmono : nonincreasing (queueDepths (length data) (seededArray data freq))).
  { apply queueDepths_nonincreasing; auto.
    rewrite seededArray_length by auto. lia. }
  assert (Hleaf : forall c f, In (c, f) (combine data freq) ->
                              In (createHuffmanNode c f) (seededArray data freq)).
  { intros c f Hin.
    apply (Permutation_in _ (Permutation_sym (seededArray_perm data freq))).
    unfold leavesOf. apply in_map_iff. exists (c, f). auto. }
  assert (Hcode : forall c f d,
             isalpha c = true -> In (c, f) (combine data freq) ->
             occursAt root (createHuffmanNode c f) d ->
             length (generateHuffmanCodes root emptyCodes c) = d).
  { intros c f d Ha Hin Hd.
    destruct (occursAt_leafPaths root _ d Hd c []) as (p' & Hp' & Hlen').
    { left. reflexivity. }
    destruct (generateHuffmanCodes_letter root emptyCodes c) as (p & Hp & ->); auto.
    { apply In_leafSymbols. eauto. }
    rewrite (NoDup_fst_unique (leafPaths root) c p p'); auto.
    - simpl in Hlen'. lia.
    - apply (Permutation_NoDup (Permutation_sym Hperm) Hnd). }
  intros c1 f1 c2 f2 Ha1 Ha2 H1 H2 Hlt.
  destruct (lighter_is_deeper (occursAt root) _ _ Hocc
              (seededArray_ascending data freq) Hmono
              (createHuffmanNode c1 f1) (createHuffmanNode c2 f2))
    as (d1 & d2 & Hd1 & Hd2 & Hle); auto.
  rewrite (Hcode c1 f1 d1), (Hcode c2 f2 d2); auto.
Qed.

Lemma code_length_monotone_witness :
  tableOfSize ["a"; "b"; "c"; "d"; "e"; "f"] [5; 9; 12; 13; 16; 45]%Z 6 /\
  (2 <= 6)%Z /\
  NoDup ["a"; "b"; "c"; "d"; "e"; "f"] /\
  Forall (fun f => (0 <= f)%Z) [5; 9; 12; 13; 16; 45]%Z /\
  (sumFreq [5; 9; 12; 13; 16; 45]%Z < UINT_MODULUS)%Z /\
  exists root,
    buildHuffmanTree ["a"; "b"; "c"; "d"; "e"; "f"] [5; 9; 12; 13; 16; 45]%Z 6 =
    Ok (Some root) /\
    forall c1 f1 c2 f2,
      isalpha c1 = true -> isalpha c2 = true ->
      In (c1, f1) (combine ["a"; "b"; "c"; "d"; "e"; "f"] [5; 9; 12; 13; 16; 45]%Z) ->
      In (c2, f2) (combine ["a"; "b"; "c"; "d"; "e"; "f"] [5; 9; 12; 13; 16; 45]%Z) ->
      (f1 < f2)%Z ->
      (length (generateHuffmanCodes root emptyCodes c2) <=
       length (generateHuffmanCodes root emptyCodes c1))%nat.
Proof.
  assert (Htab : tableOfSize ["a"; "b"; "c"; "d"; "e"; "f"]
                             [5; 9; 12; 13; 16; 45]%Z 6) by (split; reflexivity).
  assert (Hsz : (2 <= 6)%Z) by lia.
  assert (Hnd : NoDup ["a"; "b"; "c"; "d"; "e"; "f"]).
  { repeat constructor; simpl; intuition discriminate. }
  assert (Hpos : Forall (fun f => (0 <= f)%Z) [5; 9; 12; 13; 16; 45]%Z).
  { repeat constructor; lia. }
  assert (Hsum : (sumFreq [5; 9; 12; 13; 16; 45]%Z < UINT_MODULUS)%Z).
  { reflexivity. }
  split; [exact Htab|]. split; [exact Hsz|]. split; [exact Hnd|].
  split; [exact Hpos|]. split; [exact Hsum|].
  exact (code_length_monotone _ _ _ Htab Hsz Hnd Hpos Hsum).
Defined.

(** * Further properties of the queue *)

(** extractMin on a sorted queue: either the queue is empty, NULL is
    returned and nothing changes, or the node returned is the first one, no
    node left is lighter, and the queue left is sorted, one node shorter and
    of the same capacity. *)
Theorem extractMin_takes_lightest queue :
  ascending (array queue) ->
  (array queue = [] /\ extractMin queue = (NULL, queue)) \/
  (exists m queue',
      extractMin queue = (Some m, queue') /\
      array queue = m :: array queue' /\
      Forall (fun x => (freq m <= freq x)%Z) (array queue') /\
      ascending (array queue') /\
      size queue' = (size queue - 1)%Z /\
      capacity queue' = capacity queue).
Proof.
  destruct queue as [cap [|m rest]]; cbn [array]; intros Hs.
  - left. split; reflexivity.
  - right. apply StronglySorted_inv in Hs. destruct Hs as [Hs Hm].
    exists m, (mkQueue cap rest). unfold size. cbn [extractMin array capacity length].
    repeat split; auto. lia.
Qed.

Lemma extractMin_takes_lightest_witness :
  ascending [createHuffmanNode "a" 3; createHuffmanNode "b" 5] /\
  exists m queue',
    extractMin (mkQueue 4 [createHuffmanNode "a" 3; createHuffmanNode "b" 5]) =
    (Some m, queue') /\
    Forall (fun x => (freq m <= freq x)%Z) (array queue').
Proof.
  assert (Hs : ascending [createHuffmanNode "a" 3; createHuffmanNode "b" 5]).
  { repeat constructor; simpl; lia. }
  split; [exact Hs|].
  destruct (extractMin_takes_lightest
              (mkQueue 4 [createHuffmanNode "a" 3; createHuffmanNode "b" 5]) Hs)
    as [[Hnil _]|(m & queue' & Hex & _ & Hall & _)].
  - discriminate Hnil.
  - exists m, queue'. split; [exact Hex|exact Hall].
Defined.

(** Insertion never takes the queue past its capacity, whatever the order
    of the array; below capacity it adds the node, keeps every queued node
    and lengthens the queue by one. *)
Theorem insert_within_capacity queue node :
  (size queue <= capacity queue)%Z ->
  (size (insertSortedArrayPriorityQueue queue node) <=
   capacity (insertSortedArrayPriorityQueue queue node))%Z /\
  capacity (insertSortedArrayPriorityQueue queue node) = capacity queue /\
  ((size queue < capacity queue)%Z ->
   Permutation (array (insertSortedArrayPriorityQueue queue node))
               (node :: array queue) /\
   size (insertSortedArrayPriorityQueue queue node) = (size queue + 1)%Z).
Proof.
  intros Hcap.
  destruct (Z.eq_dec (size queue) (capacity queue)) as [Heq|Hne].
  - rewrite insert_full by auto. split; [lia|]. split; [reflexivity|].
    intros H. exfalso. lia.
  - rewrite insert_not_full by auto. unfold size in *. cbn [array capacity].
    rewrite insertArray_length. repeat split; try lia.
    apply insertArray_perm.
Qed.

Lemma insert_within_capacity_witness :
  (size (mkQueue 2 [createHuffmanNode "b" 5]) <=
   capacity (mkQueue 2 [createHuffmanNode "b" 5]))%Z /\
  (size (insertSortedArrayPriorityQueue (mkQueue 2 [createHuffmanNode "b" 5])
                                        (createHuffmanNode "a" 3)) <= 2)%Z.
Proof.
  assert (Hcap : (size (mkQueue 2 [createHuffmanNode "b" 5]) <=
                  capacity (mkQueue 2 [createHuffmanNode "b" 5]))%Z).
  { unfold size. simpl. lia. }
  split; [exact Hcap|].
  exact (proj1 (insert_within_capacity (mkQueue 2 [createHuffmanNode "b" 5])
                                       (createHuffmanNode "a" 3) Hcap)).
Defined.

Lemma filter_insertArray (w : Z) arr node :
  ascending arr ->
  filter (fun x => (freq x =? w)%Z) (insertArray arr node) =
  filter (fun x => (freq x =? w)%Z) arr ++
  filter (fun x => (freq x =? w)%Z) [node].
Proof.
  intros Hs.
  destruct (insertArray_sorted arr node Hs) as (l1 & l2 & -> & -> & _ & Hgt).
  rewrite !filter_app. cbn [filter].
  destruct (Z.eqb_spec (freq node) w) as [Hw|Hw].
  - assert (Hnone : filter (fun x => (freq x =? w)%Z) l2 = []).
    { clear -Hgt Hw. induction Hgt as [|x l2 Hx _ IH]; simpl; auto.
      destruct (Z.eqb_spec (freq x) w); [lia|exact IH]. }
    rewrite Hnone, app_nil_r. reflexivity.
  - rewrite app_nil_r. reflexivity.
Qed.

Lemma fold_insertArray_filter (w : Z) nodes :
  forall arr,
    ascending arr ->
    filter (fun x => (freq x =? w)%Z) (fold_left insertArray nodes arr) =
    filter (fun x => (freq x =? w)%Z) arr ++
    filter (fun x => (freq x =? w)%Z) nodes.
Proof.
  induction nodes as [|x nodes IH]; intros arr Hs.
  - simpl. rewrite app_nil_r. reflexivity.
  - cbn [fold_left]. rewrite IH by (apply insertArray_ascending, Hs).
    rewrite filter_insertArray by auto.
    change (x :: nodes) with ([x] ++ nodes).
    rewrite (filter_app _ [x] nodes), app_assoc. reflexivity.
Qed.

(** Inserting nodes one by one into a fresh queue that can hold them all
    sorts them by weight and is stable: the array is sorted, holds the nodes
    inserted, and the nodes of any one weight stand in insertion order. *)
Theorem insertions_sort_stably nodes cap :
  (Z.of_nat (length nodes) <= cap)%Z ->
  let queue := fold_left insertSortedArrayPriorityQueue nodes
                         (createSortedArrayPriorityQueue cap) in
  ascending (array queue) /\
  Permutation (array queue) nodes /\
  forall w,
    filter (fun x => (freq x =? w)%Z) (array queue) =
    filter (fun x => (freq x =? w)%Z) nodes.
Proof.
  intros Hcap queue. subst queue.
  rewrite insert_fold
    by (unfold size; cbn [createSortedArrayPriorityQueue array capacity length]; lia).
  cbn [array createSortedArrayPriorityQueue]. split; [|split].
  - apply fold_insertArray_ascending. constructor.
  - apply (fold_insertArray_perm nodes []).
  - intros w. rewrite fold_insertArray_filter by constructor. reflexivity.
Qed.

Lemma insertions_sort_stably_witness :
  (Z.of_nat (length [createHuffmanNode "a" 5; createHuffmanNode "b" 3;
                     createHuffmanNode "c" 5]) <= 3)%Z /\
  array (fold_left insertSortedArrayPriorityQueue
                   [createHuffmanNode "a" 5; createHuffmanNode "b" 3;
                    createHuffmanNode "c" 5]
                   (createSortedArrayPriorityQueue 3)) =
  [createHuffmanNode "b" 3; createHuffmanNode "a" 5; createHuffmanNode "c" 5] /\
  ascending (array (fold_left insertSortedArrayPriorityQueue
                   [createHuffmanNode "a" 5; createHuffmanNode "b" 3;
                    createHuffmanNode "c" 5]
                   (createSortedArrayPriorityQueue 3))).
Proof.
  assert (Hcap : (Z.of_nat (length [createHuffmanNode "a" 5; createHuffmanNode "b" 3;
                                    createHuffmanNode "c" 5]) <= 3)%Z)
    by (simpl; lia).
  split; [exact Hcap|]. split; [reflexivity|].
  exact (proj1 (insertions_sort_stably
                  [createHuffmanNode "a" 5; createHuffmanNode "b" 3;
                   createHuffmanNode "c" 5] 3 Hcap)).
Defined.

(** extractMin after an insertion, on a sorted queue below capacity: the
    new node comes out at once if it is strictly lighter than the first
    node (or the queue was empty), leaving the queue as it was; otherwise
    the old first node comes out, as if the insertion had been made after
    the extraction. *)
Theorem extractMin_after_insert queue node :
  ascending (array queue) ->
  (size queue < capacity queue)%Z ->
  extractMin (insertSortedArrayPriorityQueue queue node) =
  match array queue with
  | [] => (Some node, queue)
  | h :: _ =>
      if (freq h >? freq node)%Z then (Some node, queue)
      else (Some h,
            insertSortedArrayPriorityQueue (snd (extractMin queue)) node)
  end.
Proof.
  destruct queue as [cap arr]. unfold size. cbn [array capacity].
  intros Hs Hcap.
  rewrite insert_not_full by (unfold size; cbn [array capacity]; lia).
  cbn [array capacity]. rewrite insertArray_insertAfterEqual by auto.
  destruct arr as [|h rest]; [reflexivity|].
  cbn [insertAfterEqual].
  destruct (freq h >? freq node)%Z; [reflexivity|].
  cbn [extractMin array capacity snd].
  rewrite insert_not_full
    by (unfold size; cbn [array capacity length] in *; lia).
  cbn [array capacity].
  apply StronglySorted_inv in Hs. destruct Hs as [Hs _].
  rewrite insertArray_insertAfterEqual by auto. reflexivity.
Qed.

Lemma extractMin_after_insert_witness :
  ascending (array (mkQueue 3 [createHuffmanNode "a" 3; createHuffmanNode "b" 5])) /\
  extractMin (insertSortedArrayPriorityQueue
                (mkQueue 3 [createHuffmanNode "a" 3; createHuffmanNode "b" 5])
                (createHuffmanNode "c" 3)) =
  (Some (createHuffmanNode "a" 3),
   mkQueue 3 [createHuffmanNode "c" 3; createHuffmanNode "b" 5]).
Proof.
  assert (Hs : ascending (array (mkQueue 3 [createHuffmanNode "a" 3;
                                            createHuffmanNode "b" 5]))).
  { repeat constructor; simpl; lia. }
  split; [exact Hs|].
  refine (eq_trans (extractMin_after_insert
                      (mkQueue 3 [createHuffmanNode "a" 3; createHuffmanNode "b" 5])
                      (createHuffmanNode "c" 3) Hs _) _).
  - unfold size. simpl. lia.
  - reflexivity.
Defined.

(** * Further properties of the built tree *)

Lemma leafEntries_leavesOf (L : list (ascii * Z)) :
  flat_map leafEntries
           (map (fun df => createHuffmanNode (fst df) (snd df)) L) = L.
Proof.
  induction L as [|[d f] L IH]; simpl; [reflexivity|].
  rewrite IH. reflexivity.
Qed.

Lemma leavesOf_merged data fs : Forall merged (leavesOf data fs).
Proof.
  unfold leavesOf. apply Forall_forall. intros x Hx.
  apply in_map_iff in Hx. destruct Hx as (df & <- & _). constructor.
Qed.

(** The tree built for a table of at least one entry, with its leaves. *)
Lemma buildHuffmanTree_merged data fs sz :
  tableOfSize data fs sz ->
  (1 <= sz)%Z ->
  exists root,
    buildHuffmanTree data fs sz = Ok (Some root) /\
    merged root /\
    Permutation (leafEntries root) (combine data fs).
Proof.
  intros Htab Hsz. rewrite buildHuffmanTree_array by auto.
  destruct Htab as [Hd Hf].
  assert (Hlen : length data = length fs) by lia.
  destruct (mergeArray_root (length data) (seededArray data fs))
    as (root & Hroot & _).
  { rewrite seededArray_length by auto. lia. }
  exists root. rewrite Hroot. split; [reflexivity|].
  assert (Hinv : Forall merged [root] /\
                 Permutation (flat_map leafEntries [root]) (combine data fs)).
  { rewrite <- Hroot.
    apply (mergeArray_invariant
             (fun arr => Forall merged arr /\
                         Permutation (flat_map leafEntries arr) (combine data fs))).
    - intros l r rest [Hm Hperm]. split.
      + eapply Permutation_Forall.
        * symmetry. apply insertArray_perm.
        * inversion Hm as [|? ? Hl Hrest]; subst.
          inversion Hrest as [|? ? Hr Hrest']; subst.
          constructor; auto. constructor; auto.
      + rewrite (Permutation_flat_map leafEntries
                   (insertArray_perm rest (mergeNodes l r))).
        cbn [flat_map mergeNodes leafEntries isNull andb] in *.
        rewrite <- app_assoc. exact Hperm.
    - split.
      + eapply Permutation_Forall.
        * symmetry. apply seededArray_perm.
        * apply leavesOf_merged.
      + rewrite (Permutation_flat_map leafEntries (seededArray_perm data fs)).
        unfold leavesOf. rewrite leafEntries_leavesOf. reflexivity. }
  destruct Hinv as [Hm Hperm]. split.
  - inversion Hm; auto.
  - cbn [flat_map] in Hperm. rewrite app_nil_r in Hperm. exact Hperm.
Qed.

(** The leaves of the tree built from a table are the entries of the table,
    each one once, with the weights given: no entry is lost to the
    full-queue guard and none is added. *)
Theorem built_leaves_are_table_entries data fs sz :
  tableOfSize data fs sz ->
  (1 <= sz)%Z ->
  exists root,
    buildHuffmanTree data fs sz = Ok (Some root) /\
    Permutation (leafEntries root) (combine data fs).
Proof.
  intros Htab Hsz.
  destruct (buildHuffmanTree_merged data fs sz Htab Hsz) as (root & Hb & _ & Hp).
  exists root. auto.
Qed.

Lemma built_leaves_are_table_entries_witness :
  tableOfSize ["a"; "b"; "a"] [5; 9; 12]%Z 3 /\
  (1 <= 3)%Z /\
  exists root,
    buildHuffmanTree ["a"; "b"; "a"] [5; 9; 12]%Z 3 = Ok (Some root) /\
    Permutation (leafEntries root) (combine ["a"; "b"; "a"] [5; 9; 12]%Z).
Proof.
  assert (Htab : tableOfSize ["a"; "b"; "a"] [5; 9; 12]%Z 3) by (split; reflexivity).
  assert (Hsz : (1 <= 3)%Z) by lia.
  split; [exact Htab|]. split; [exact Hsz|].
  exact (built_leaves_are_table_entries _ _ _ Htab Hsz).
Defined.

(** Every inner node of the built tree has two children, carries the
    placeholder '$' and weighs the wrapped sum of its children's weights. *)
Theorem built_tree_is_merged data fs sz :
  tableOfSize data fs sz ->
  (1 <= sz)%Z ->
  exists root,
    buildHuffmanTree data fs sz = Ok (Some root) /\
    merged root.
Proof.
  intros Htab Hsz.
  destruct (buildHuffmanTree_merged data fs sz Htab Hsz) as (root & Hb & Hm & _).
  exists root. auto.
Qed.

Lemma built_tree_is_merged_witness :
  tableOfSize ["a"; "b"; "c"] [5; 9; 12]%Z 3 /\
  (1 <= 3)%Z /\
  exists root,
    buildHuffmanTree ["a"; "b"; "c"] [5; 9; 12]%Z 3 = Ok (Some root) /\
    merged root.
Proof.
  assert (Htab : tableOfSize ["a"; "b"; "c"] [5; 9; 12]%Z 3) by (split; reflexivity).
  assert (Hsz : (1 <= 3)%Z) by lia.
  split; [exact Htab|]. split; [exact Hsz|].
  exact (built_tree_is_merged _ _ _ Htab Hsz).
Defined.

Lemma UINT_MODULUS_pos : (0 < UINT_MODULUS)%Z.
Proof. reflexivity. Qed.

Lemma leavesOf_in_range data fs :
  Forall (fun f => (0 <= f < UINT_MODULUS)%Z) fs ->
  Forall (fun t => (0 <= freq t < UINT_MODULUS)%Z) (leavesOf data fs).
Proof.
  intros Hr. unfold leavesOf. apply Forall_forall. intros t Ht.
  apply in_map_iff in Ht. destruct Ht as ([d f] & <- & Hin).
  apply in_combine_r in Hin. rewrite Forall_forall in Hr.
  simpl. auto.
Qed.

(** The weight of the root is the sum of the frequencies of the table,
    reduced modulo 2^32; it is the sum itself when that fits in
    [unsigned]. *)
Theorem root_weight_is_wrapped_total data fs sz :
  tableOfSize data fs sz ->
  (1 <= sz)%Z ->
  Forall (fun f => (0 <= f < UINT_MODULUS)%Z) fs ->
  exists root,
    buildHuffmanTree data fs sz = Ok (Some root) /\
    freq root = (sumFreq fs mod UINT_MODULUS)%Z /\
    ((sumFreq fs < UINT_MODULUS)%Z -> freq root = sumFreq fs).
Proof.
  intros Htab Hsz Hrange.
  pose proof UINT_MODULUS_pos as Hpos.
  assert (Hlen : length data = length fs) by (destruct Htab; lia).
  destruct (mergeArray_root (length data) (seededArray data fs))
    as (root & Hroot & _).
  { rewrite seededArray_length by auto. destruct Htab. lia. }
  exists root. rewrite buildHuffmanTree_array by auto. rewrite Hroot.
  split; [reflexivity|].
  assert (Hinv : Forall (fun t => (0 <= freq t < UINT_MODULUS)%Z) [root] /\
                 (totalFreq [root] mod UINT_MODULUS =
                  sumFreq fs mod UINT_MODULUS)%Z).
  { rewrite <- Hroot.
    apply (mergeArray_invariant
             (fun arr => Forall (fun t => (0 <= freq t < UINT_MODULUS)%Z) arr /\
                         (totalFreq arr mod UINT_MODULUS =
                          sumFreq fs mod UINT_MODULUS)%Z)).
    - intros l r rest [Hr Htot]. split.
      + eapply Permutation_Forall.
        * symmetry. apply insertArray_perm.
        * inversion Hr as [|? ? _ Hrest]; subst.
          inversion Hrest as [|? ? _ Hrest']; subst.
          constructor; auto. cbn [mergeNodes freq]. unfold uadd.
          apply Z.mod_pos_bound. exact Hpos.
      + rewrite (totalFreq_perm _ _ (insertArray_perm rest (mergeNodes l r))).
        rewrite <- Htot. unfold totalFreq. cbn [fold_right mergeNodes freq].
        unfold uadd. rewrite Zplus_mod_idemp_l. f_equal. lia.
    - split.
      + eapply Permutation_Forall.
        * symmetry. apply seededArray_perm.
        * apply leavesOf_in_range, Hrange.
      + rewrite (totalFreq_perm _ _ (seededArray_perm data fs)).
        rewrite totalFreq_leavesOf by auto. reflexivity. }
  destruct Hinv as [Hr Htot].
  inversion Hr as [|? ? Hroot_range _]; subst.
  unfold totalFreq in Htot. cbn [fold_right] in Htot.
  rewrite Z.add_0_r, (Z.mod_small (freq root)) in Htot by lia.
  split; [exact Htot|].
  intros Hfit. rewrite Htot. apply Z.mod_small. split; [|exact Hfit].
  clear -Hrange. unfold sumFreq. induction Hrange; simpl; lia.
Qed.

Lemma root_weight_is_wrapped_total_witness :
  tableOfSize ["a"; "b"; "c"; "d"; "e"; "f"] [5; 9; 12; 13; 16; 45]%Z 6 /\
  (1 <= 6)%Z /\
  Forall (fun f => (0 <= f < UINT_MODULUS)%Z) [5; 9; 12; 13; 16; 45]%Z /\
  exists root,
    buildHuffmanTree ["a"; "b"; "c"; "d"; "e"; "f"] [5; 9; 12; 13; 16; 45]%Z 6 =
    Ok (Some root) /\
    freq root = (sumFreq [5; 9; 12; 13; 16; 45] mod UINT_MODULUS)%Z /\
    ((sumFreq [5; 9; 12; 13; 16; 45] < UINT_MODULUS)%Z ->
     freq root = sumFreq [5; 9; 12; 13; 16; 45]%Z).
Proof.
  assert (Htab : tableOfSize ["a"; "b"; "c"; "d"; "e"; "f"]
                             [5; 9; 12; 13; 16; 45]%Z 6) by (split; reflexivity).
  assert (Hsz : (1 <= 6)%Z) by lia.
  assert (Hr : Forall (fun f => (0 <= f < UINT_MODULUS)%Z) [5; 9; 12; 13; 16; 45]%Z).
  { repeat constructor; unfold UINT_MODULUS; simpl; lia. }
  split; [exact Htab|]. split; [exact Hsz|]. split; [exact Hr|].
  exact (root_weight_is_wrapped_total _ _ _ Htab Hsz Hr).
Defined.

Lemma freeNodes_count t :
  full t ->
  (length (freeNodes t) + 1 = 2 * length (leafPaths t))%nat /\
  length (filter isLeaf (freeNodes t)) = length (leafPaths t).
Proof.
  induction 1 as [d f|d f l r Hl [IHl1 IHl2] Hr [IHr1 IHr2]].
  - split; reflexivity.
  - cbn [freeNodes leafPaths isNull andb].
    rewrite !filter_app, !length_app, !length_map, IHl2, IHr2.
    cbn [filter isLeaf left right isNull andb length]. split; lia.
Qed.

(** freeHuffmanTree on the pointer buildHuffmanTree returns: for a table of
    n entries it frees 2n - 1 nodes, n of them leaves (nothing for the null
    root of an empty table), and the root is the last one freed. *)
Theorem freeHuffmanTree_frees_every_node data fs sz :
  tableOfSize data fs sz ->
  exists root,
    buildHuffmanTree data fs sz = Ok root /\
    length (freeHuffmanTree root) = (2 * length data - 1)%nat /\
    length (filter isLeaf (freeHuffmanTree root)) = length data /\
    forall n, root = Some n -> exists before, freeHuffmanTree root = before ++ [n].
Proof.
  intros Htab.
  destruct (Z.eq_dec sz 0) as [->|Hne].
  - exists NULL. rewrite buildHuffmanTree_none by lia.
    destruct Htab as [Hd _]. destruct data; [|discriminate Hd].
    repeat split. intros n Hn. discriminate Hn.
  - assert (Hsz : (1 <= sz)%Z) by (destruct Htab; lia).
    destruct (buildHuffmanTree_root data fs sz Htab Hsz)
      as (root & Hb & Hfull & Hperm & _).
    exists (Some root). split; [exact Hb|].
    destruct (freeNodes_count root Hfull) as [Hall Hleaves].
    assert (Hn : length (leafPaths root) = length data).
    { apply Permutation_length in Hperm. unfold leafSymbols in Hperm.
      rewrite length_map in Hperm. exact Hperm. }
    cbn [freeHuffmanTree]. rewrite Hleaves, Hn. repeat split; try lia.
    intros n Hn'. injection Hn' as <-. destruct root as [d f l r].
    cbn [freeNodes]. rewrite app_assoc. eexists. reflexivity.
Qed.

Lemma freeHuffmanTree_frees_every_node_witness :
  tableOfSize ["a"; "b"; "c"] [5; 9; 12]%Z 3 /\
  exists root,
    buildHuffmanTree ["a"; "b"; "c"] [5; 9; 12]%Z 3 = Ok root /\
    length (freeHuffmanTree root) = 5%nat.
Proof.
  assert (Htab : tableOfSize ["a"; "b"; "c"] [5; 9; 12]%Z 3) by (split; reflexivity).
  split; [exact Htab|].
  destruct (freeHuffmanTree_frees_every_node _ _ _ Htab) as (root & Hb & Hlen & _).
  exists root. split; [exact Hb|exact Hlen].
Defined.

(** * Further properties of the code table *)

Lemma leafPaths_bits root :
  forall s p, In (s, p) (leafPaths root) -> Forall (fun b => b = "0" \/ b = "1") p.
Proof.
  induction root as [d f l r IHl IHr] using HuffmanNode_ind.
  intros s p Hin. cbn [leafPaths] in Hin.
  destruct (isNull l && isNull r).
  - destruct Hin as [E|[]]. injection E as _ <-. constructor.
  - apply in_app_or in Hin. destruct Hin as [Hin|Hin].
    + destruct l as [l|]; [|destruct Hin].
      apply in_map_iff in Hin. destruct Hin as ([s' p'] & E & Hin).
      simpl in E. injection E as _ <-. constructor; [left; reflexivity|].
      apply (IHl s' p' Hin).
    + destruct r as [r|]; [|destruct Hin].
      apply in_map_iff in Hin. destruct Hin as ([s' p'] & E & Hin).
      simpl in E. injection E as _ <-. constructor; [right; reflexivity|].
      apply (IHr s' p' Hin).
Qed.

(** In a tree whose inner nodes have two children a leaf lies less deep
    than there are leaves. *)
Lemma leafPaths_depth t :
  full t ->
  forall s p, In (s, p) (leafPaths t) -> (S (length p) <= length (leafPaths t))%nat.
Proof.
  induction 1 as [d f|d f l r Hl IHl Hr IHr]; intros s p Hin.
  - destruct Hin as [E|[]]. injection E as _ <-. simpl. lia.
  - cbn [leafPaths isNull andb] in *. rewrite length_app, !length_map.
    pose proof (leafPaths_nonempty l Hl). pose proof (leafPaths_nonempty r Hr).
    apply in_app_or in Hin. destruct Hin as [Hin|Hin];
      apply in_map_iff in Hin; destruct Hin as ([s' p'] & E & Hin);
      simpl in E; injection E as _ <-; simpl.
    + specialize (IHl s' p' Hin). lia.
    + specialize (IHr s' p' Hin). lia.
Qed.

(** A row of the table generated from the empty one is empty or the path of
    a leaf. *)
Lemma generated_row root c :
  generateHuffmanCodes root emptyCodes c = [] \/
  In (c, generateHuffmanCodes root emptyCodes c) (leafPaths root).
Proof.
  destruct (generateHuffmanCodes_cases root emptyCodes c)
    as [[Heq _]|(p & Hp & _ & Heq)].
  - left. exact Heq.
  - right. rewrite Heq. exact Hp.
Qed.

Lemma built_code_length data fs sz root :
  tableOfSize data fs sz ->
  (1 <= sz)%Z ->
  buildHuffmanTree data fs sz = Ok (Some root) ->
  forall c, (S (length (generateHuffmanCodes root emptyCodes c)) <= length data)%nat.
Proof.
  intros Htab Hsz Hb c.
  destruct (buildHuffmanTree_root data fs sz Htab Hsz)
    as (root' & Hb' & Hfull & Hperm & _).
  rewrite Hb in Hb'. injection Hb' as <-.
  assert (Hn : length (leafPaths root) = length data).
  { apply Permutation_length in Hperm. unfold leafSymbols in Hperm.
    rewrite length_map in Hperm. exact Hperm. }
  destruct (generated_row root c) as [->|Hin].
  - simpl. destruct Htab. lia.
  - rewrite <- Hn. apply (leafPaths_depth root Hfull c _ Hin).
Qed.

(** For a table of n entries, n at most 256, generateHuffmanCodes stays
    inside its buffers and every code it generates is a string of '0' and
    '1' of at most n - 1 characters, hence of at most 255. *)
Theorem codes_are_short_bit_strings data fs sz :
  tableOfSize data fs sz ->
  (1 <= sz <= 256)%Z ->
  exists root,
    buildHuffmanTree data fs sz = Ok (Some root) /\
    generateHuffmanCodesInBounds root = true /\
    forall c,
      Forall (fun b => b = "0" \/ b = "1") (generateHuffmanCodes root emptyCodes c) /\
      (Z.of_nat (length (generateHuffmanCodes root emptyCodes c)) <= sz - 1)%Z /\
      (length (generateHuffmanCodes root emptyCodes c) <= 255)%nat.
Proof.
  intros Htab Hsz.
  destruct (buildHuffmanTree_root data fs sz Htab ltac:(lia)) as (root & Hb & _).
  exists root. split; [exact Hb|].
  split; [apply (built_tree_in_bounds data fs sz); auto|].
  intros c.
  pose proof (built_code_length data fs sz root Htab ltac:(lia) Hb c) as Hlen.
  split; [|destruct Htab; split; lia].
  destruct (generated_row root c) as [->|Hin]; [constructor|].
  apply (leafPaths_bits root c _ Hin).
Qed.

Lemma codes_are_short_bit_strings_witness :
  tableOfSize ["a"; "b"; "c"] [5; 9; 12]%Z 3 /\
  (1 <= 3 <= 256)%Z /\
  exists root,
    buildHuffmanTree ["a"; "b"; "c"] [5; 9; 12]%Z 3 = Ok (Some root) /\
    generateHuffmanCodesInBounds root = true /\
    forall c,
      Forall (fun b => b = "0" \/ b = "1") (generateHuffmanCodes root emptyCodes c) /\
      (Z.of_nat (length (generateHuffmanCodes root emptyCodes c)) <= 3 - 1)%Z /\
      (length (generateHuffmanCodes root emptyCodes c) <= 255)%nat.
Proof.
  assert (Htab : tableOfSize ["a"; "b"; "c"] [5; 9; 12]%Z 3) by (split; reflexivity).
  assert (Hsz : (1 <= 3 <= 256)%Z) by lia.
  split; [exact Htab|]. split; [exact Hsz|].
  exact (codes_are_short_bit_strings _ _ _ Htab Hsz).
Defined.

Lemma writes_override code L c :
  forall codes1 codes2,
    (exists p, In (c, p) L) -> isalpha c = true ->
    fold_left (writeLeaf code) L codes1 c = fold_left (writeLeaf code) L codes2 c.
Proof.
  induction L as [|[s p] L IH] using rev_ind; intros codes1 codes2 [p0 Hin] Ha.
  - destruct Hin.
  - rewrite !fold_left_app. cbn [fold_left]. unfold writeLeaf at 1 3.
    cbn [fst snd]. unfold setCode.
    destruct (Ascii.eqb_spec c s) as [->|Hne].
    + rewrite Ha, Ascii.eqb_refl. reflexivity.
    + assert (Hin' : exists p, In (c, p) L).
      { apply in_app_or in Hin. destruct Hin as [Hin|[E|[]]]; [eauto|].
        injection E as E _. congruence. }
      destruct (isalpha s).
      * apply Ascii.eqb_neq in Hne. rewrite Hne. apply IH; auto.
      * apply IH; auto.
Qed.

(** generateHuffmanCodes, on any table and any tree on which it stays
    inside its buffers (no letter leaf and no inner node more than 255
    levels down): the row of a letter that labels a leaf is overwritten,
    whatever it held, and every other row is left as it was. *)
Theorem generateHuffmanCodes_rows root codes c :
  generateHuffmanCodesInBounds root = true ->
  (isalpha c = true -> In c (leafSymbols root) ->
   forall codes', generateHuffmanCodes root codes c =
                  generateHuffmanCodes root codes' c) /\
  (isalpha c = false \/ ~ In c (leafSymbols root) ->
   generateHuffmanCodes root codes c = codes c).
Proof.
  intros _. split.
  - intros Ha Hin codes'. unfold generateHuffmanCodes.
    rewrite !storeCodes_writes. apply writes_override; auto.
    apply In_leafSymbols. exact Hin.
  - apply generateHuffmanCodes_other.
Qed.

Lemma generateHuffmanCodes_rows_witness :
  generateHuffmanCodesInBounds
    (mergeNodes (createHuffmanNode "a" 1) (createHuffmanNode "1" 2)) = true /\
  generateHuffmanCodes
    (mergeNodes (createHuffmanNode "a" 1) (createHuffmanNode "1" 2))
    (setCode emptyCodes "1" ["1"; "1"]) "1" = ["1"; "1"].
Proof.
  assert (Hin : generateHuffmanCodesInBounds
                  (mergeNodes (createHuffmanNode "a" 1) (createHuffmanNode "1" 2)) = true)
    by reflexivity.
  split; [exact Hin|].
  exact (proj2 (generateHuffmanCodes_rows
                  (mergeNodes (createHuffmanNode "a" 1) (createHuffmanNode "1" 2))
                  (setCode emptyCodes "1" ["1"; "1"]) "1" Hin)
               (or_introl eq_refl)).
Defined.

Lemma encodedStream_length (codes : CodeTable) n text :
  (forall c, (S (length (codes c)) <= n)%nat) ->
  (length (encodedStream codes text) <= n * length text)%nat.
Proof.
  intros Hn. induction text as [|c text IH]; simpl; [lia|].
  rewrite !length_app. specialize (Hn c). simpl. lia.
Qed.

(** With the codes of a table of n entries, n at most 256, the stream
    encodeData returns for a text of k characters has at most n * k
    characters, hence at most 256 * k: the count of line 184, which leaves
    no byte over for the terminator when the bound is reached. *)
Theorem encodeData_length data fs sz :
  tableOfSize data fs sz ->
  (1 <= sz <= 256)%Z ->
  exists root,
    buildHuffmanTree data fs sz = Ok (Some root) /\
    generateHuffmanCodesInBounds root = true /\
    forall text,
    exists stream,
      encodeData text (generateHuffmanCodes root emptyCodes) = Ok stream /\
      (length stream <= length data * length text)%nat /\
      (length stream <= 256 * length text)%nat.
Proof.
  intros Htab Hsz.
  destruct (buildHuffmanTree_root data fs sz Htab ltac:(lia)) as (root & Hb & _).
  exists root. split; [exact Hb|].
  split; [apply (built_tree_in_bounds data fs sz); auto|].
  intros text.
  exists (encodedStream (generateHuffmanCodes root emptyCodes) text).
  split; [apply encodeData_stream|].
  pose proof (encodedStream_length (generateHuffmanCodes root emptyCodes)
                (length data) text
                (built_code_length data fs sz root Htab ltac:(lia) Hb)) as Hlen.
  split; [exact Hlen|]. destruct Htab as [Hd _]. nia.
Qed.

Lemma encodeData_length_witness :
  tableOfSize ["a"; "b"; "c"] [5; 9; 12]%Z 3 /\
  (1 <= 3 <= 256)%Z /\
  exists root,
    buildHuffmanTree ["a"; "b"; "c"] [5; 9; 12]%Z 3 = Ok (Some root) /\
    generateHuffmanCodesInBounds root = true /\
    forall text,
    exists stream,
      encodeData text (generateHuffmanCodes root emptyCodes) = Ok stream /\
      (length stream <= length ["a"; "b"; "c"] * length text)%nat /\
      (length stream <= 256 * length text)%nat.
Proof.
  assert (Htab : tableOfSize ["a"; "b"; "c"] [5; 9; 12]%Z 3) by (split; reflexivity).
  assert (Hsz : (1 <= 3 <= 256)%Z) by lia.
  split; [exact Htab|]. split; [exact Hsz|].
  exact (encodeData_length _ _ _ Htab Hsz).
Defined.

Lemma flat_map_guarded (A B C : Type) (g : A -> B) (h : B -> bool)
      (k : B -> list C) (l : list A) :
  flat_map (fun i => if h (g i) then k (g i) else []) l =
  flat_map k (filter h (map g l)).
Proof.
  induction l as [|i l IH]; simpl; [reflexivity|].
  destruct (h (g i)); simpl; rewrite IH; reflexivity.
Qed.

Lemma inTable_In data c : inTable data c = true <-> In c data.
Proof.
  unfold inTable. rewrite existsb_exists. split.
  - intros (x & Hin & Heq). apply Ascii.eqb_eq in Heq. subst. exact Hin.
  - intros Hin. exists c. split; [exact Hin|apply Ascii.eqb_refl].
Qed.

(** In the table generated for a tree that is not a single leaf, the rows
    that hold a code are those of the letters that label a leaf. *)
Lemma hasCode_built root data :
  Permutation (leafSymbols root) data ->
  isLeaf root = false ->
  forall c,
    hasCode (generateHuffmanCodes root emptyCodes) c = isalpha c && inTable data c.
Proof.
  intros Hperm Hinner c. apply eq_true_iff_eq. rewrite andb_true_iff, inTable_In.
  unfold hasCode. split.
  - intros Hc.
    destruct (generateHuffmanCodes_cases root emptyCodes c)
      as [[Heq _]|(p & Hp & Ha & _)].
    + rewrite Heq in Hc. discriminate.
    + split; auto. apply (Permutation_in c Hperm).
      apply In_leafSymbols. eauto.
  - intros [Ha Hin].
    apply (Permutation_in c (Permutation_sym Hperm)) in Hin.
    destruct (generateHuffmanCodes_letter root emptyCodes c Hin Ha) as (p & Hp & ->).
    pose proof (leafPaths_inner_nonempty root c p Hinner Hp).
    destruct p; [contradiction|reflexivity].
Qed.

(** printCodes on the table generated for a frequency table of at most 256
    entries (generateHuffmanCodes then stays inside its buffers): after the
    title it writes one line "c: code" for each letter of the table, each
    letter once, in ascending order of character code; for a table of a
    single entry it writes the title alone. *)
Theorem printCodes_lines data fs sz :
  tableOfSize data fs sz ->
  (1 <= sz <= 256)%Z ->
  exists root,
    buildHuffmanTree data fs sz = Ok (Some root) /\
    generateHuffmanCodesInBounds root = true /\
    ((2 <= sz)%Z ->
     printCodes (generateHuffmanCodes root emptyCodes) =
     ["H"; "u"; "f"; "f"; "m"; "a"; "n"; " "; "C"; "o"; "d"; "e"; "s"; ":"; "010"] ++
     flat_map (codeLine (generateHuffmanCodes root emptyCodes))
              (filter (fun c => isalpha c && inTable data c) allChars)) /\
    (sz = 1%Z ->
     printCodes (generateHuffmanCodes root emptyCodes) =
     ["H"; "u"; "f"; "f"; "m"; "a"; "n"; " "; "C"; "o"; "d"; "e"; "s"; ":"; "010"]).
Proof.
  intros Htab Hsz.
  destruct (buildHuffmanTree_root data fs sz Htab ltac:(lia))
    as (root & Hb & Hfull & Hperm & Hinner).
  exists root. split; [exact Hb|].
  split; [apply (built_tree_in_bounds data fs sz); auto|].
  assert (Hprint : forall codes,
             printCodes codes =
             ["H"; "u"; "f"; "f"; "m"; "a"; "n"; " "; "C"; "o"; "d"; "e"; "s"; ":"; "010"] ++
             flat_map (codeLine codes) (filter (hasCode codes) allChars)).
  { intros codes. unfold printCodes. f_equal.
    apply (flat_map_guarded _ _ _ ascii_of_nat (hasCode codes) (codeLine codes)). }
  split.
  - intros H2. rewrite Hprint. f_equal. f_equal.
    apply filter_ext. apply hasCode_built; auto.
  - intros ->. rewrite Hprint.
    destruct Htab as [Hd Hf].
    destruct data as [|d [|d' data]]; cbn [length] in Hd; try lia.
    destruct fs as [|f [|f' fs]]; cbn [length] in Hf; try lia.
    rewrite buildHuffmanTree_single in Hb. injection Hb as <-.
    rewrite (filter_ext _ (fun _ => false)), filter_false; [reflexivity|].
    intros c. unfold hasCode.
    destruct (generated_row (createHuffmanNode d f) c) as [->|Hin]; [reflexivity|].
    destruct Hin as [E|[]]. injection E as _ <-. reflexivity.
Qed.

Lemma printCodes_lines_witness :
  tableOfSize ["b"; "1"; "a"] [5; 9; 12]%Z 3 /\
  (1 <= 3 <= 256)%Z /\
  exists root,
    buildHuffmanTree ["b"; "1"; "a"] [5; 9; 12]%Z 3 = Ok (Some root) /\
    ((2 <= 3)%Z ->
     printCodes (generateHuffmanCodes root emptyCodes) =
     ["H"; "u"; "f"; "f"; "m"; "a"; "n"; " "; "C"; "o"; "d"; "e"; "s"; ":"; "010"] ++
     flat_map (codeLine (generateHuffmanCodes root emptyCodes))
              (filter (fun c => isalpha c && inTable ["b"; "1"; "a"] c) allChars)).
Proof.
  assert (Htab : tableOfSize ["b"; "1"; "a"] [5; 9; 12]%Z 3) by (split; reflexivity).
  assert (Hsz : (1 <= 3 <= 256)%Z) by lia.
  split; [exact Htab|]. split; [exact Hsz|].
  destruct (printCodes_lines _ _ _ Htab Hsz) as (root & Hb & _ & Hlines & _).
  exists root. split; [exact Hb|exact Hlines].
Defined.

(** * Further properties of the transcoder *)

Lemma decodeLoop_output_length root n :
  forall enc cur out,
    (length enc <= n)%nat ->
    decodeLoop root cur enc = Ok out ->
    (length out <= length enc)%nat.
Proof.
  induction n as [|n IH]; intros enc cur out Hlen Hdec.
  - destruct enc; [|simpl in Hlen; lia].
    simpl in Hdec. injection Hdec as <-. simpl. lia.
  - destruct enc as [|c rest].
    { simpl in Hdec. injection Hdec as <-. simpl. lia. }
    simpl in Hlen. cbn [decodeLoop] in Hdec.
    destruct (deref (if Ascii.eqb c "0" then left cur
                     else if Ascii.eqb c "1" then right cur else Some cur))
      as [m|e]; cbn [bind] in Hdec; [|discriminate].
    destruct (isLeaf m || Ascii.eqb c " ").
    + destruct (decodeLoop root root (skipDelimiter rest)) as [out'|e] eqn:Hrest;
        cbn [bind] in Hdec; [|discriminate].
      injection Hdec as <-.
      pose proof (skipDelimiter_length rest).
      apply IH in Hrest; [simpl; lia|lia].
    + apply IH in Hdec; [simpl; lia|lia].
Qed.

(** When decodeData returns, its output has at most as many characters as
    the stream (the premise of the allocation of line 208), on any tree. *)
Theorem decodeData_output_length root stream out :
  decodeData root stream = Ok out ->
  (length out <= length stream)%nat.
Proof.
  intros H. apply (decodeLoop_output_length root (length stream) stream root out); auto.
Qed.

Lemma decodeData_output_length_witness :
  decodeData (mergeNodes (createHuffmanNode "a" 1) (createHuffmanNode "b" 2))
             ["0"; "1"; " "; "0"] = Ok ["a"; "b"; "a"] /\
  (length ["a"; "b"; "a"] <= length ["0"; "1"; " "; "0"])%nat.
Proof.
  assert (H : decodeData (mergeNodes (createHuffmanNode "a" 1) (createHuffmanNode "b" 2))
                         ["0"; "1"; " "; "0"] = Ok ["a"; "b"; "a"]) by reflexivity.
  split; [exact H|].
  exact (decodeData_output_length _ _ _ H).
Defined.

Lemma code_starts_with_bit root c p :
  isLeaf root = false -> In (c, p) (leafPaths root) ->
  forall s, skipDelimiter (p ++ s) = p ++ s.
Proof.
  intros Hinner Hin s.
  destruct (leafPaths_inner root c p Hinner Hin)
    as [(? & ? & _ & -> & _)|(? & ? & _ & -> & _)]; reflexivity.
Qed.

(** The delimiters are not needed: the codes of a text of letters of the
    table, written one after the other with nothing between them, decode to
    the text. *)
Theorem decodeData_without_delimiters data fs sz text :
  tableOfSize data fs sz ->
  (2 <= sz)%Z ->
  Forall (fun c => In c data /\ isalpha c = true) text ->
  exists root,
    buildHuffmanTree data fs sz = Ok (Some root) /\
    decodeData root (flat_map (generateHuffmanCodes root emptyCodes) text) = Ok text.
Proof.
  intros Htab Hsz Htext.
  destruct (buildHuffmanTree_root data fs sz Htab ltac:(lia))
    as (root & Hb & _ & Hperm & Hinner).
  specialize (Hinner Hsz). exists root. split; [exact Hb|].
  pose proof (letters_coded root data emptyCodes text Hperm Htext) as Hcoded.
  unfold decodeData. clear Htext.
  induction Hcoded as [|c text Hc Hrest IH]; [reflexivity|].
  cbn [flat_map].
  rewrite (decodeLoop_path root _ root c _ Hinner Hc).
  assert (Hskip : skipDelimiter (flat_map (generateHuffmanCodes root emptyCodes) text) =
                  flat_map (generateHuffmanCodes root emptyCodes) text).
  { destruct Hrest as [|c' text' Hc' _]; [reflexivity|].
    cbn [flat_map]. apply (code_starts_with_bit root c' _ Hinner Hc'). }
  rewrite Hskip, IH. reflexivity.
Qed.

Lemma decodeData_without_delimiters_witness :
  tableOfSize ["a"; "b"; "c"] [5; 9; 12]%Z 3 /\
  (2 <= 3)%Z /\
  Forall (fun c => In c ["a"; "b"; "c"] /\ isalpha c = true) ["c"; "a"; "b"] /\
  exists root,
    buildHuffmanTree ["a"; "b"; "c"] [5; 9; 12]%Z 3 = Ok (Some root) /\
    decodeData root (flat_map (generateHuffmanCodes root emptyCodes) ["c"; "a"; "b"]) =
    Ok ["c"; "a"; "b"].
Proof.
  assert (Htab : tableOfSize ["a"; "b"; "c"] [5; 9; 12]%Z 3) by (split; reflexivity).
  assert (Hsz : (2 <= 3)%Z) by lia.
  assert (Htext : Forall (fun c => In c ["a"; "b"; "c"] /\ isalpha c = true)
                         ["c"; "a"; "b"])
    by (repeat constructor; simpl; auto).
  split; [exact Htab|]. split; [exact Hsz|]. split; [exact Htext|].
  exact (decodeData_without_delimiters _ _ _ _ Htab Hsz Htext).
Defined.

Lemma merged_inner cur :
  merged cur -> isLeaf cur = false ->
  data cur = "$" /\
  exists l r, left cur = Some l /\ right cur = Some r /\ merged l /\ merged r.
Proof.
  intros [d f|l r Hl Hr] Hinner.
  - discriminate Hinner.
  - split; [reflexivity|]. exists l, r. auto.
Qed.

Lemma decodeLoop_delimiter_here root cur rest :
  decodeLoop root cur (" " :: rest) =
  bind (decodeLoop root root (skipDelimiter rest)) (fun out => Ok (data cur :: out)).
Proof.
  cbn [decodeLoop Ascii.eqb Bool.eqb andb deref bind].
  rewrite orb_true_r. reflexivity.
Qed.

(** A delimiter met below the root, before any leaf, emits the '$' of the
    inner node reached. *)
Lemma decodeLoop_delimiter_inside root rest bits :
  forall cur s q,
    merged cur -> q <> [] -> In (s, bits ++ q) (leafPaths cur) ->
    decodeLoop root cur (bits ++ " " :: rest) =
    bind (decodeLoop root root (skipDelimiter rest)) (fun out => Ok ("$" :: out)).
Proof.
  induction bits as [|b bits IH]; intros cur s q Hm Hq Hin.
  - assert (Hcur : isLeaf cur = false).
    { destruct (isLeaf cur) eqn:E; auto.
      rewrite (isLeaf_leafPaths cur E) in Hin. destruct Hin as [E'|[]].
      injection E' as _ E'. simpl in E'. congruence. }
    destruct (merged_inner cur Hm Hcur) as [Hdata _].
    cbn [app]. rewrite decodeLoop_delimiter_here, Hdata. reflexivity.
  - assert (Hcur : isLeaf cur = false).
    { destruct (isLeaf cur) eqn:E; auto.
      rewrite (isLeaf_leafPaths cur E) in Hin. destruct Hin as [E'|[]].
      discriminate. }
    destruct (merged_inner cur Hm Hcur) as (_ & l & r & Hl & Hr & Hml & Hmr).
    assert (Hinner : forall n, In (s, bits ++ q) (leafPaths n) -> isLeaf n = false).
    { intros n Hn. destruct (isLeaf n) eqn:E; auto.
      rewrite (isLeaf_leafPaths n E) in Hn. destruct Hn as [E'|[]].
      injection E' as _ E'. symmetry in E'. apply app_eq_nil in E'.
      destruct E' as [_ E']. contradiction. }
    destruct (leafPaths_inner cur _ _ Hcur Hin)
      as [(n & p' & Hn & E & Hin')|(n & p' & Hn & E & Hin')];
      simpl in E; injection E as -> <-;
      cbn [app decodeLoop Ascii.eqb Bool.eqb andb];
      rewrite Hn; cbn [deref bind];
      rewrite (Hinner n Hin'); cbn [orb]; apply (IH n s q); auto; congruence.
Qed.

(** A delimiter that does not follow a decoded symbol is not skipped: met
    at the root or part-way down a code of a letter, it puts a '$' into the
    output and sends the cursor back to the root. *)
Theorem decodeData_stray_delimiter data fs sz :
  tableOfSize data fs sz ->
  (2 <= sz)%Z ->
  exists root,
    buildHuffmanTree data fs sz = Ok (Some root) /\
    (forall rest,
        decodeData root (" " :: rest) =
        bind (decodeData root (skipDelimiter rest)) (fun out => Ok ("$" :: out))) /\
    (forall bits rest,
        cutCode data (generateHuffmanCodes root emptyCodes) bits ->
        decodeData root (bits ++ " " :: rest) =
        bind (decodeData root (skipDelimiter rest)) (fun out => Ok ("$" :: out))).
Proof.
  intros Htab Hsz.
  destruct (buildHuffmanTree_root data fs sz Htab ltac:(lia))
    as (root & Hb & _ & Hperm & Hinner).
  specialize (Hinner Hsz).
  destruct (buildHuffmanTree_merged data fs sz Htab ltac:(lia))
    as (root' & Hb' & Hm & _).
  rewrite Hb in Hb'. injection Hb' as <-.
  exists root. split; [exact Hb|]. split.
  - intros rest. unfold decodeData. rewrite decodeLoop_delimiter_here.
    destruct (merged_inner root Hm Hinner) as [-> _]. reflexivity.
  - intros bits rest (c & q & Hc & Ha & Hq & Hcode). unfold decodeData.
    assert (Hin : Forall (fun c => In (c, generateHuffmanCodes root emptyCodes c)
                                     (leafPaths root)) [c]).
    { apply (letters_coded root data emptyCodes [c] Hperm). constructor; auto. }
    inversion Hin as [|? ? Hin' _]; subst. rewrite Hcode in Hin'.
    apply (decodeLoop_delimiter_inside root rest bits root c q Hm Hq Hin').
Qed.

Lemma decodeData_stray_delimiter_witness :
  tableOfSize ["a"; "b"; "c"] [1; 2; 3]%Z 3 /\
  (2 <= 3)%Z /\
  exists root,
    buildHuffmanTree ["a"; "b"; "c"] [1; 2; 3]%Z 3 = Ok (Some root) /\
    decodeData root [" "; "0"] = Ok ["$"; "c"].
Proof.
  assert (Htab : tableOfSize ["a"; "b"; "c"] [1; 2; 3]%Z 3) by (split; reflexivity).
  assert (Hsz : (2 <= 3)%Z) by lia.
  split; [exact Htab|]. split; [exact Hsz|].
  destruct (decodeData_stray_delimiter _ _ _ Htab Hsz) as (root & Hb & Hroot & _).
  exists root. split; [exact Hb|].
  rewrite (Hroot ["0"]).
  assert (Hr : Ok (Some root) =
               buildHuffmanTree ["a"; "b"; "c"] [1; 2; 3]%Z 3) by (symmetry; exact Hb).
  vm_compute in Hr. injection Hr as ->. reflexivity.
Defined.

Lemma hasCode_entry root c :
  hasCode (generateHuffmanCodes root emptyCodes) c = true ->
  In (c, generateHuffmanCodes root emptyCodes c) (leafPaths root).
Proof.
  unfold hasCode. intros Hc.
  destruct (generated_row root c) as [E|Hin]; [|exact Hin].
  rewrite E in Hc. discriminate.
Qed.

Lemma hasCode_none (codes : CodeTable) c : hasCode codes c = false -> codes c = [].
Proof. unfold hasCode. destruct (codes c); [reflexivity|discriminate]. Qed.

(** Decoding what encodeData makes of any text, on a tree that is not a
    single leaf. *)
Lemma decodeLoop_collapses root :
  isLeaf root = false ->
  forall n text,
    (length text <= n)%nat ->
    decodeLoop root root
      (encodedStream (generateHuffmanCodes root emptyCodes) text) =
    Ok (collapseUnknown (hasCode (generateHuffmanCodes root emptyCodes))
                        (data root) text).
Proof.
  intros Hinner. set (codes := generateHuffmanCodes root emptyCodes).
  induction n as [|n IH]; intros text Hlen.
  - destruct text; [reflexivity|simpl in Hlen; lia].
  - destruct text as [|c rest]; [reflexivity|]. simpl in Hlen.
    cbn [encodedStream flat_map collapseUnknown].
    fold (encodedStream codes rest).
    destruct (hasCode codes c) eqn:Hc.
    + rewrite <- app_assoc.
      rewrite (decodeLoop_path root (codes c) root c _ Hinner (hasCode_entry root c Hc)).
      cbn [app skipDelimiter Ascii.eqb Bool.eqb andb].
      rewrite IH by lia. reflexivity.
    + rewrite (hasCode_none codes c Hc). cbn [app].
      rewrite decodeLoop_delimiter_here.
      assert (Hrest : decodeLoop root root (skipDelimiter (encodedStream codes rest)) =
                      Ok (collapseUnknown (hasCode codes) (data root)
                                          (dropUnknown (hasCode codes) rest))).
      { destruct rest as [|c' rest']; [reflexivity|].
        cbn [dropUnknown]. destruct (hasCode codes c') eqn:Hc'.
        - cbn [encodedStream flat_map]. rewrite <- app_assoc.
          rewrite (code_starts_with_bit root c' (codes c') Hinner
                     (hasCode_entry root c' Hc')).
          rewrite app_assoc.
          change ((codes c' ++ [" "]) ++ flat_map (fun c0 => codes c0 ++ [" "]) rest')
            with (encodedStream codes (c' :: rest')).
          apply IH. simpl in *. lia.
        - cbn [encodedStream flat_map]. rewrite (hasCode_none codes c' Hc').
          cbn [app skipDelimiter Ascii.eqb Bool.eqb andb].
          apply IH. simpl in *. lia. }
      rewrite Hrest. reflexivity.
Qed.

Lemma collapseUnknown_ext (k1 k2 : ascii -> bool) filler :
  (forall c, k1 c = k2 c) ->
  forall n text,
    (length text <= n)%nat ->
    collapseUnknown k1 filler text = collapseUnknown k2 filler text.
Proof.
  intros Hk. induction n as [|n IH]; intros text Hlen.
  - destruct text; [reflexivity|simpl in Hlen; lia].
  - destruct text as [|c rest]; [reflexivity|]. simpl in Hlen.
    cbn [collapseUnknown]. rewrite <- Hk. destruct (k1 c).
    + rewrite IH by lia. reflexivity.
    + f_equal. destruct rest as [|c' rest']; [reflexivity|].
      cbn [dropUnknown]. rewrite <- Hk. destruct (k1 c'); apply IH; simpl in *; lia.
Qed.

(** Decoding the stream of any text with the tree of a table of at least
    two entries. *)
Lemma decodeData_encoded_built data fs sz root :
  tableOfSize data fs sz ->
  (2 <= sz)%Z ->
  buildHuffmanTree data fs sz = Ok (Some root) ->
  forall text,
    decodeData root (encodedStream (generateHuffmanCodes root emptyCodes) text) =
    Ok (collapseUnknown (fun c => isalpha c && inTable data c) "$" text).
Proof.
  intros Htab Hsz Hb text.
  destruct (buildHuffmanTree_root data fs sz Htab ltac:(lia))
    as (root1 & Hb1 & _ & Hperm & Hinner).
  rewrite Hb in Hb1. injection Hb1 as <-.
  specialize (Hinner Hsz).
  destruct (buildHuffmanTree_merged data fs sz Htab ltac:(lia))
    as (root2 & Hb2 & Hm & _).
  rewrite Hb in Hb2. injection Hb2 as <-.
  unfold decodeData.
  rewrite (decodeLoop_collapses root Hinner (length text) text (le_n _)).
  destruct (merged_inner root Hm Hinner) as [-> _]. f_equal.
  apply (collapseUnknown_ext _ _ "$" (hasCode_built root data Hperm Hinner)
                             (length text) text (le_n _)).
Qed.

(** What encoding and then decoding makes of any text, with the tree and
    codes of a table of at least two and at most 256 entries (the codes
    are then generated inside the buffers): the letters of the table come
    back as they are, every other character comes back as '$', and of two
    such characters in a row the second is lost. *)
Theorem transcode_any_text data fs sz :
  tableOfSize data fs sz ->
  (2 <= sz <= 256)%Z ->
  exists root,
    buildHuffmanTree data fs sz = Ok (Some root) /\
    generateHuffmanCodesInBounds root = true /\
    forall text,
      transcode root (generateHuffmanCodes root emptyCodes) text =
      Ok (collapseUnknown (fun c => isalpha c && inTable data c) "$" text).
Proof.
  intros Htab Hsz.
  destruct (buildHuffmanTree_root data fs sz Htab ltac:(lia)) as (root & Hb & _).
  exists root. split; [exact Hb|].
  split; [apply (built_tree_in_bounds data fs sz); auto; lia|].
  intros text.
  unfold transcode. rewrite encodeData_stream. cbn [bind].
  apply (decodeData_encoded_built data fs sz root Htab ltac:(lia) Hb).
Qed.

Lemma transcode_any_text_witness :
  tableOfSize ["a"; "b"; "c"] [1; 2; 3]%Z 3 /\
  (2 <= 3 <= 256)%Z /\
  exists root,
    buildHuffmanTree ["a"; "b"; "c"] [1; 2; 3]%Z 3 = Ok (Some root) /\
    transcode root (generateHuffmanCodes root emptyCodes)
              ["a"; " "; "c"; "a"; "b"; ","; " "; "x"; "b"] =
    Ok ["a"; "$"; "c"; "a"; "b"; "$"; "$"; "b"].
Proof.
  assert (Htab : tableOfSize ["a"; "b"; "c"] [1; 2; 3]%Z 3) by (split; reflexivity).
  assert (Hsz : (2 <= 3 <= 256)%Z) by lia.
  split; [exact Htab|]. split; [exact Hsz|].
  destruct (transcode_any_text _ _ _ Htab Hsz) as (root & Hb & _ & Htext).
  exists root. split; [exact Hb|].
  exact (Htext ["a"; " "; "c"; "a"; "b"; ","; " "; "x"; "b"]).
Defined.

Lemma existsb_isBit_skipDelimiter rest :
  existsb isBit (skipDelimiter rest) = existsb isBit rest.
Proof.
  destruct rest as [|c rest]; [reflexivity|]. cbn [skipDelimiter].
  destruct (Ascii.eqb_spec c " ") as [->|_]; reflexivity.
Qed.

Lemma decodeLoop_single_leaf d f n :
  forall enc,
    (length enc <= n)%nat ->
    (existsb isBit enc = true /\
     decodeLoop (mkNode d f NULL NULL) (mkNode d f NULL NULL) enc =
     Err NullDereference) \/
    (existsb isBit enc = false /\
     exists k, decodeLoop (mkNode d f NULL NULL) (mkNode d f NULL NULL) enc =
               Ok (repeat d k)).
Proof.
  induction n as [|n IH]; intros enc Hlen.
  - destruct enc; [|simpl in Hlen; lia]. right. split; [reflexivity|].
    exists 0%nat. reflexivity.
  - destruct enc as [|c rest].
    { right. split; [reflexivity|]. exists 0%nat. reflexivity. }
    simpl in Hlen. cbn [decodeLoop existsb]. unfold isBit at 1 3.
    destruct (Ascii.eqb c "0"); [left; split; reflexivity|].
    destruct (Ascii.eqb c "1"); [left; split; reflexivity|].
    cbn [orb deref bind isLeaf left right isNull andb data].
    rewrite <- (existsb_isBit_skipDelimiter rest).
    pose proof (skipDelimiter_length rest).
    destruct (IH (skipDelimiter rest) ltac:(lia)) as [[Hb ->]|[Hb (k & ->)]].
    + left. split; [exact Hb|reflexivity].
    + right. split; [exact Hb|]. exists (S k). reflexivity.
Qed.

(** With the single-leaf tree of a table of one entry, decodeData follows a
    null child exactly when the stream holds a '0' or a '1'; on any other
    stream it returns, with copies of the one symbol. *)
Theorem decodeData_single_leaf d f stream :
  buildHuffmanTree [d] [f] 1 = Ok (Some (createHuffmanNode d f)) /\
  ((existsb isBit stream = true /\
    decodeData (createHuffmanNode d f) stream = Err NullDereference) \/
   (existsb isBit stream = false /\
    exists k, decodeData (createHuffmanNode d f) stream = Ok (repeat d k))).
Proof.
  split; [reflexivity|].
  exact (decodeLoop_single_leaf d f (length stream) stream (le_n _)).
Qed.

(** * Files and [main] *)

Lemma cString_no_nul bytes : ~ In "000" bytes -> cString bytes = bytes.
Proof.
  induction bytes as [|c bytes IH]; intros Hno; [reflexivity|].
  cbn [cString]. destruct (Ascii.eqb_spec c "000") as [->|_].
  - exfalso. apply Hno. left. reflexivity.
  - rewrite IH; [reflexivity|]. intros Hin. apply Hno. right. exact Hin.
Qed.

Lemma cString_cut before after :
  ~ In "000" before -> cString (before ++ "000" :: after) = before.
Proof.
  induction before as [|c before IH]; intros Hno; [reflexivity|].
  cbn [app cString]. destruct (Ascii.eqb_spec c "000") as [->|_].
  - exfalso. apply Hno. left. reflexivity.
  - rewrite IH; [reflexivity|]. intros Hin. apply Hno. right. exact Hin.
Qed.

(** encodeTextFromFile followed by decodeData, with the codes and tree of a
    table of at least two and at most 256 entries (the codes are then
    generated inside the buffers).  A file that cannot be opened gives
    NULL.  Otherwise the stream returned decodes to the text of the file
    up to its first NUL byte, with every character that is not a letter of
    the table turned into '$' (the second of two such characters in a row
    being lost); what follows a NUL byte is not encoded at all, and the
    tree passed as first argument plays no part. *)
Theorem encodeTextFromFile_then_decodeData data fs sz :
  tableOfSize data fs sz ->
  (2 <= sz <= 256)%Z ->
  exists root,
    buildHuffmanTree data fs sz = Ok (Some root) /\
    generateHuffmanCodesInBounds root = true /\
    (forall other,
        encodeTextFromFile other (generateHuffmanCodes root emptyCodes) None =
        Ok None) /\
    (forall other bytes,
      exists stream,
        encodeTextFromFile other (generateHuffmanCodes root emptyCodes)
                           (Some bytes) = Ok (Some stream) /\
        decodeData root stream =
        Ok (collapseUnknown (fun c => isalpha c && inTable data c) "$"
                            (cString bytes))) /\
    (forall other before after,
        ~ In "000" before ->
        encodeTextFromFile other (generateHuffmanCodes root emptyCodes)
                           (Some (before ++ "000" :: after)) =
        encodeTextFromFile root (generateHuffmanCodes root emptyCodes)
                           (Some before)).
Proof.
  intros Htab Hsz.
  destruct (buildHuffmanTree_root data fs sz Htab ltac:(lia)) as (root & Hb & _).
  exists root. split; [exact Hb|].
  split; [apply (built_tree_in_bounds data fs sz); auto; lia|].
  split; [reflexivity|]. split.
  - intros other bytes. eexists. cbn [encodeTextFromFile].
    rewrite encodeData_stream. cbn [bind]. split; [reflexivity|].
    apply (decodeData_encoded_built data fs sz root Htab ltac:(lia) Hb).
  - intros other before after Hno. cbn [encodeTextFromFile].
    rewrite cString_cut, cString_no_nul by auto. reflexivity.
Qed.

Lemma encodeTextFromFile_then_decodeData_witness :
  tableOfSize ["a"; "b"; "c"] [1; 2; 3]%Z 3 /\
  (2 <= 3 <= 256)%Z /\
  exists root,
    buildHuffmanTree ["a"; "b"; "c"] [1; 2; 3]%Z 3 = Ok (Some root) /\
    exists stream,
      encodeTextFromFile root (generateHuffmanCodes root emptyCodes)
                         (Some ["c"; "a"; "010"; "b"; "000"; "a"]) =
      Ok (Some stream) /\
      decodeData root stream = Ok ["c"; "a"; "$"; "b"].
Proof.
  assert (Htab : tableOfSize ["a"; "b"; "c"] [1; 2; 3]%Z 3) by (split; reflexivity).
  assert (Hsz : (2 <= 3 <= 256)%Z) by lia.
  split; [exact Htab|]. split; [exact Hsz|].
  destruct (encodeTextFromFile_then_decodeData _ _ _ Htab Hsz)
    as (root & Hb & _ & _ & Hfile & _).
  exists root. split; [exact Hb|].
  exact (Hfile root ["c"; "a"; "010"; "b"; "000"; "a"]).
Defined.

Lemma english_table : tableOfSize letters english_freq 52.
Proof. split; reflexivity. Qed.

Lemma french_table : tableOfSize letters french_freq 52.
Proof. split; reflexivity. Qed.

(** The letters of [main]'s table are the 51 letters other than 'N'. *)
Lemma mainLetter_table c : isalpha c && inTable letters c = mainLetter c.
Proof.
  destruct c as [b0 b1 b2 b3 b4 b5 b6 b7].
  destruct b0, b1, b2, b3, b4, b5, b6, b7; reflexivity.
Qed.

Lemma decodeData_main fs sz root :
  tableOfSize letters fs sz ->
  (2 <= sz)%Z ->
  buildHuffmanTree letters fs sz = Ok (Some root) ->
  forall text,
    decodeData root (encodedStream (generateHuffmanCodes root emptyCodes) text) =
    Ok (collapseUnknown mainLetter "$" text).
Proof.
  intros Htab Hsz Hb text.
  rewrite (decodeData_encoded_built letters fs sz root Htab Hsz Hb).
  f_equal.
  apply (collapseUnknown_ext _ _ "$" mainLetter_table (length text) text (le_n _)).
Qed.

(** [main] needs both input files: if either cannot be opened, the NULL that
    encodeTextFromFile returns is used unchecked and the run ends in a null
    dereference instead of returning. *)
Theorem main_needs_both_files fs :
  fs englishInputFilename = None \/ fs frenchInputFilename = None ->
  main fs = Err NullDereference.
Proof.
  intros Hmissing. unfold main. cbv zeta.
  destruct (buildHuffmanTree_root letters english_freq 52 english_table ltac:(lia))
    as (er & Hbe & _).
  destruct (buildHuffmanTree_root letters french_freq 52 french_table ltac:(lia))
    as (fr & Hbf & _).
  rewrite Hbe, Hbf. cbn [bind deref].
  destruct (fs englishInputFilename) as [e|] eqn:He; [|reflexivity].
  destruct Hmissing as [Hm|Hm]; [discriminate Hm|].
  cbn [encodeTextFromFile]. rewrite encodeData_stream. cbn [bind deref].
  rewrite (decodeData_main english_freq 52 er english_table ltac:(lia) Hbe).
  cbn [bind]. rewrite Hm. reflexivity.
Qed.

Lemma main_needs_both_files_witness :
  ((fun _ : list ascii => @None (list ascii)) englishInputFilename = None \/
   (fun _ : list ascii => @None (list ascii)) frenchInputFilename = None) /\
  main (fun _ => None) = Err NullDereference.
Proof.
  assert (H : (fun _ : list ascii => @None (list ascii)) englishInputFilename = None \/
              (fun _ : list ascii => @None (list ascii)) frenchInputFilename = None)
    by (left; reflexivity).
  split; [exact H|].
  exact (main_needs_both_files (fun _ => None) H).
Defined.

(** With both files present [main] returns, and after each "Decoded ...
    Text:" title it has written the text of the file (up to a NUL byte)
    with the letters other than 'N' as they are and every other character,
    'N' included, as '$', the second of two such characters in a row being
    lost. *)
Theorem main_prints_collapsed_text fs english french :
  fs englishInputFilename = Some english ->
  fs frenchInputFilename = Some french ->
  exists head middle,
    main fs =
    Ok (head ++
      ["010"; "D"; "e"; "c"; "o"; "d"; "e"; "d"; " "; "E"; "n"; "g"; "l";
       "i"; "s"; "h"; " "; "T"; "e"; "x"; "t"; ":"; "010"]%char ++
        collapseUnknown mainLetter "$" (cString english) ++ ["010"%char] ++
        middle ++
      ["010"; "D"; "e"; "c"; "o"; "d"; "e"; "d"; " "; "F"; "r"; "e"; "n";
       "c"; "h"; " "; "T"; "e"; "x"; "t"; ":"; "010"]%char ++
        collapseUnknown mainLetter "$" (cString french) ++ ["010"%char]).
Proof.
  intros He Hf. unfold main. cbv zeta.
  destruct (buildHuffmanTree_root letters english_freq 52 english_table ltac:(lia))
    as (er & Hbe & _).
  destruct (buildHuffmanTree_root letters french_freq 52 french_table ltac:(lia))
    as (fr & Hbf & _).
  rewrite Hbe, Hbf. cbn [bind deref]. rewrite He, Hf.
  cbn [encodeTextFromFile]. rewrite !encodeData_stream. cbn [bind deref].
  rewrite (decodeData_main english_freq 52 er english_table ltac:(lia) Hbe).
  cbn [bind].
  rewrite (decodeData_main french_freq 52 fr french_table ltac:(lia) Hbf).
  cbn [bind].
  match goal with
  | |- exists head middle,
      Ok (((?H ++ ?TD ++ ?D ++ ?N) ++ ?M) ++ ?TDf ++ ?Df ++ ?N2) = _ =>
      exists H, M
  end.
  f_equal. rewrite <- !app_assoc. reflexivity.
Qed.

Lemma main_prints_collapsed_text_witness :
  (fun _ : list ascii => Some ["N"; "o"; " "; " "; "n"; "o"]) englishInputFilename =
  Some ["N"; "o"; " "; " "; "n"; "o"] /\
  (fun _ : list ascii => Some ["N"; "o"; " "; " "; "n"; "o"]) frenchInputFilename =
  Some ["N"; "o"; " "; " "; "n"; "o"] /\
  collapseUnknown mainLetter "$" (cString ["N"; "o"; " "; " "; "n"; "o"]) =
  ["$"; "o"; "$"; "n"; "o"] /\
  exists head middle,
    main (fun _ => Some ["N"; "o"; " "; " "; "n"; "o"]) =
    Ok (head ++
      ["010"; "D"; "e"; "c"; "o"; "d"; "e"; "d"; " "; "E"; "n"; "g"; "l"; "i"; "s";
       "h"; " "; "T"; "e"; "x"; "t"; ":"; "010"]%char ++
        collapseUnknown mainLetter "$" (cString ["N"; "o"; " "; " "; "n"; "o"]) ++
        ["010"%char] ++
        middle ++
      ["010"; "D"; "e"; "c"; "o"; "d"; "e"; "d"; " "; "F"; "r"; "e"; "n"; "c"; "h";
       " "; "T"; "e"; "x"; "t"; ":"; "010"]%char ++
        collapseUnknown mainLetter "$" (cString ["N"; "o"; " "; " "; "n"; "o"]) ++
        ["010"%char]).
Proof.
  split; [reflexivity|]. split; [reflexivity|]. split; [reflexivity|].
  exact (main_prints_collapsed_text
           (fun _ => Some ["N"; "o"; " "; " "; "n"; "o"])
           ["N"; "o"; " "; " "; "n"; "o"] ["N"; "o"; " "; " "; "n"; "o"]
           eq_refl eq_refl).
Defined.

Lemma collapseUnknown_known (known : ascii -> bool) filler text :
  Forall (fun c => known c = true) text ->
  collapseUnknown known filler text = text.
Proof.
  induction 1 as [|c text Hc _ IH]; [reflexivity|].
  cbn [collapseUnknown]. rewrite Hc, IH. reflexivity.
Qed.

(** Encoding loses nothing on the letters of the table: two texts made of
    letters of a table of at least two and at most 256 entries (whose codes
    are generated inside the buffers) that are given the same stream are
    the same text. *)
Theorem encodeData_injective_on_letters data fs sz text1 text2 :
  tableOfSize data fs sz ->
  (2 <= sz <= 256)%Z ->
  Forall (fun c => In c data /\ isalpha c = true) text1 ->
  Forall (fun c => In c data /\ isalpha c = true) text2 ->
  exists root,
    buildHuffmanTree data fs sz = Ok (Some root) /\
    generateHuffmanCodesInBounds root = true /\
    (encodeData text1 (generateHuffmanCodes root emptyCodes) =
     encodeData text2 (generateHuffmanCodes root emptyCodes) ->
     text1 = text2).
Proof.
  intros Htab Hsz H1 H2.
  destruct (buildHuffmanTree_root data fs sz Htab ltac:(lia)) as (root & Hb & _).
  exists root. split; [exact Hb|].
  split; [apply (built_tree_in_bounds data fs sz); auto; lia|].
  rewrite !encodeData_stream. intros Heq. injection Heq as Heq.
  assert (Hknown : forall text,
             Forall (fun c => In c data /\ isalpha c = true) text ->
             Forall (fun c => isalpha c && inTable data c = true) text).
  { intros text Ht. eapply Forall_impl; [|exact Ht].
    intros c [Hin Ha]. cbv beta. rewrite Ha. apply inTable_In. exact Hin. }
  pose proof (decodeData_encoded_built data fs sz root Htab ltac:(lia) Hb text1) as D1.
  pose proof (decodeData_encoded_built data fs sz root Htab ltac:(lia) Hb text2) as D2.
  rewrite collapseUnknown_known in D1 by (apply Hknown, H1).
  rewrite collapseUnknown_known in D2 by (apply Hknown, H2).
  rewrite Heq in D1. rewrite D1 in D2. injection D2 as D2. exact D2.
Qed.

(** At the table {'a': 1, 'b': 2, 'c': 3} the texts "ab" and "ba" are made
    of letters of the table, so their streams differ. *)
Lemma encodeData_injective_on_letters_witness :
  tableOfSize ["a"; "b"; "c"] [1; 2; 3]%Z 3 /\
  (2 <= 3 <= 256)%Z /\
  Forall (fun c => In c ["a"; "b"; "c"] /\ isalpha c = true) ["a"; "b"] /\
  Forall (fun c => In c ["a"; "b"; "c"] /\ isalpha c = true) ["b"; "a"] /\
  exists root,
    buildHuffmanTree ["a"; "b"; "c"] [1; 2; 3]%Z 3 = Ok (Some root) /\
    encodeData ["a"; "b"] (generateHuffmanCodes root emptyCodes) <>
    encodeData ["b"; "a"] (generateHuffmanCodes root emptyCodes).
Proof.
  assert (Htab : tableOfSize ["a"; "b"; "c"] [1; 2; 3]%Z 3) by (split; reflexivity).
  assert (Hsz : (2 <= 3 <= 256)%Z) by lia.
  assert (H1 : Forall (fun c => In c ["a"; "b"; "c"] /\ isalpha c = true) ["a"; "b"])
    by (repeat constructor; simpl; auto).
  assert (H2 : Forall (fun c => In c ["a"; "b"; "c"] /\ isalpha c = true) ["b"; "a"])
    by (repeat constructor; simpl; auto).
  split; [exact Htab|]. split; [exact Hsz|]. split; [exact H1|]. split; [exact H2|].
  destruct (encodeData_injective_on_letters _ _ _ _ _ Htab Hsz H1 H2)
    as (root & Hb & _ & Hinj).
  exists root. split; [exact Hb|].
  intros Heq. apply Hinj in Heq. discriminate Heq.
Defined.
